(** * A shallow embedding of src/dos/direct/ts/direct.ts

    The development follows the structure of the TypeScript source:
    - [Keys]: the key matrix and the key/mouse forwarding of
      [DirectCommandInterface] ([addKey], [sendKeyEvent], [simulateKeyPress],
      [sendMouseMotion], [sendMouseButton]);
    - [Lifecycle]: the memoized [persist()] and [exit()] futures, with the
      module's one-shot callback slots, a store of JS promises and the
      microtask queue that runs [.then] reactions;
    - [Startup]: [DosDirect], the startup handshake with its error log;
    - [Screen]: [screenshot()] over the module's byte heap [HEAPU8]. *)

From stdpp Require Import gmap strings list.
From Stdlib Require Import ZArith Lia.

Module Keys.

Local Open Scope Z_scope.

(** Calls the host makes into the module's input entry points. *)
Inductive ModuleCall :=
| AddKey (keyCode : Z) (pressed : bool) (timeMs : Z)
| MouseMove (x y : Z) (timeMs : Z)
| MouseButton (button : Z) (pressed : bool) (timeMs : Z).

(** The part of [DirectCommandInterface] the input methods touch:
    [startedAt], [keyMatrix] (a JS object keyed by key code) and the
    sequence of calls made so far into [this.module]. *)
Record KeyCI := mkKeyCI {
  startedAt : Z;
  keyMatrix : gmap Z bool;
  sent : list ModuleCall
}.

(** [this.keyMatrix[keyCode] === true] *)
Definition is_pressed (m : gmap Z bool) (keyCode : Z) : bool :=
  match m !! keyCode with
  | Some true => true
  | _ => false
  end.

(** [addKey(keyCode, pressed, timeMs)] *)
Definition addKey (keyCode : Z) (pressed : bool) (timeMs : Z) (ci : KeyCI) : KeyCI :=
  let keyPressed := is_pressed (keyMatrix ci) keyCode in
  if Bool.eqb keyPressed pressed then ci
  else mkKeyCI (startedAt ci) (<[keyCode := pressed]> (keyMatrix ci))
                (sent ci ++ [AddKey keyCode pressed timeMs]).

(** [sendKeyEvent(keyCode, pressed)], [now] being the value of [Date.now()]. *)
Definition sendKeyEvent (now : Z) (keyCode : Z) (pressed : bool) (ci : KeyCI) : KeyCI :=
  addKey keyCode pressed (now - startedAt ci) ci.

(** [simulateKeyPress(...keyCodes)]: two [forEach] passes. *)
Definition simulateKeyPress (now : Z) (keyCodes : list Z) (ci : KeyCI) : KeyCI :=
  let timeMs := now - startedAt ci in
  let ci1 := fold_left (fun c keyCode => addKey keyCode true timeMs c) keyCodes ci in
  fold_left (fun c keyCode => addKey keyCode false (timeMs + 16) c) keyCodes ci1.

(** [sendMouseMotion(x, y)] *)
Definition sendMouseMotion (now : Z) (x y : Z) (ci : KeyCI) : KeyCI :=
  mkKeyCI (startedAt ci) (keyMatrix ci) (sent ci ++ [MouseMove x y (now - startedAt ci)]).

(** [sendMouseButton(button, pressed)] *)
Definition sendMouseButton (now : Z) (button : Z) (pressed : bool) (ci : KeyCI) : KeyCI :=
  mkKeyCI (startedAt ci) (keyMatrix ci)
          (sent ci ++ [MouseButton button pressed (now - startedAt ci)]).

(** A fresh interface: [keyMatrix = {}], nothing sent yet. *)
Definition fresh (startedAt : Z) : KeyCI := mkKeyCI startedAt ∅ [].

(** A run of [sendKeyEvent] calls, each with the clock reading at its call. *)
Record KeyCall := mkKeyCall { kc_now : Z; kc_code : Z; kc_pressed : bool }.

Fixpoint run_key_events (calls : list KeyCall) (ci : KeyCI) : KeyCI :=
  match calls with
  | [] => ci
  | c :: rest => run_key_events rest (sendKeyEvent (kc_now c) (kc_code c) (kc_pressed c) ci)
  end.

(** Following the spec's words: the recorded state of each code (absent
    counting as released) is the last pressed value given for it; a call is
    forwarded iff its pressed value differs from that recorded state. *)
Definition record (st : Z -> bool) (k : Z) (p : bool) : Z -> bool :=
  fun j => if Z.eqb j k then p else st j.

Fixpoint last_state (st : Z -> bool) (calls : list KeyCall) : Z -> bool :=
  match calls with
  | [] => st
  | c :: rest => last_state (record st (kc_code c) (kc_pressed c)) rest
  end.

Fixpoint forwarded_spec (t0 : Z) (st : Z -> bool) (calls : list KeyCall) : list ModuleCall :=
  match calls with
  | [] => []
  | c :: rest =>
      (if Bool.eqb (st (kc_code c)) (kc_pressed c) then []
       else [AddKey (kc_code c) (kc_pressed c) (kc_now c - t0)])
      ++ forwarded_spec t0 (record st (kc_code c) (kc_pressed c)) rest
  end.

(** Host commands of the input API, as issued by a caller. *)
Inductive HostCmd :=
| CKeyEvent (keyCode : Z) (pressed : bool)
| CKeyPress (keyCodes : list Z)
| CMouseMotion (x y : Z)
| CMouseButton (button : Z) (pressed : bool).

Definition host_step (now : Z) (cmd : HostCmd) (ci : KeyCI) : KeyCI :=
  match cmd with
  | CKeyEvent k p => sendKeyEvent now k p ci
  | CKeyPress ks => simulateKeyPress now ks ci
  | CMouseMotion x y => sendMouseMotion now x y ci
  | CMouseButton b p => sendMouseButton now b p ci
  end.

(** A run of host commands, each paired with the [Date.now()] reading at
    its call. *)
Fixpoint run_host (cmds : list (Z * HostCmd)) (ci : KeyCI) : KeyCI :=
  match cmds with
  | [] => ci
  | (now, cmd) :: rest => run_host rest (host_step now cmd ci)
  end.

(** The relative timestamp a forwarded call carries. *)
Definition timeMs_of (c : ModuleCall) : Z :=
  match c with
  | AddKey _ _ t | MouseMove _ _ t | MouseButton _ _ t => t
  end.

(** The reading of [Date.now()] never goes back between two commands. *)
Fixpoint clock_nondecreasing (cmds : list (Z * HostCmd)) : bool :=
  match cmds with
  | (n1, _) :: (((n2, _) :: _) as rest) => (n1 <=? n2) && clock_nondecreasing rest
  | _ => true
  end.

Definition is_keypress (cmd : HostCmd) : bool :=
  match cmd with CKeyPress _ => true | _ => false end.

(** The delay added to the timestamps of a command's releases. *)
Definition cmd_delay (cmd : HostCmd) : Z := if is_keypress cmd then 16 else 0.

(** The first command of [cmds] comes at relative time [B] or later. *)
Definition head_after (B : Z) (s : Z) (cmds : list (Z * HostCmd)) : Prop :=
  match cmds with (n, _) :: _ => B <= n - s | [] => True end.

End Keys.

Module Lifecycle.

(** A JS exception value; module exceptions and [new Error(msg)] alike. *)
Inductive Exn := JsError (msg : string).

(** Values futures settle with: [Uint8Array] archives and [undefined]. *)
Inductive Val := VArchive (bytes : list Z) | VUndefined.

(** The state of a JS promise. *)
Inductive PState := Pending | Fulfilled (v : Val) | Rejected (e : Exn).

#[global] Instance Exn_eq_dec : EqDecision Exn.
Proof. solve_decision. Defined.
#[global] Instance Val_eq_dec : EqDecision Val.
Proof. solve_decision. Defined.
#[global] Instance PState_eq_dec : EqDecision PState.
Proof. solve_decision. Defined.

(** What an observer sees, in order: requests the host makes into the
    module, callback slots the module invokes, events fired on the Event Bus
    (subscribers run synchronously inside [fire]), and promises leaving
    [Pending] (awaiting code runs only after that). *)
Inductive Obs :=
| ReqPackFsToBundle
| ReqRequestExit
| CbPersist
| CbExit
| EvMessage (level : string) (args : list string)
| EvExit
| Settled (h : nat) (st : PState).

(** A pending [.then] reaction: [src.then(() => { this.events().fireExit(); })]
    whose result promise is [dst]. *)
Inductive Reaction := ThenFireExit (src dst : nat).

(** The function installed in [module.err] and [module.printErr]. *)
Inductive Sink := StartupErrFn | ErrFn.

Record World := mkWorld {
  store : gmap nat PState;        (** every promise created so far *)
  next_id : nat;
  persistPromise : option nat;    (** [this.persistPromise] *)
  exitPromise : option nat;       (** [this.exitPromise] *)
  slot_persist : option nat;      (** [module.persist]: resolves this promise *)
  slot_exit : option nat;         (** [module.exit = resolve] of this promise *)
  err_sink : Sink;
  startupErrorLog : string;
  reactions : list Reaction;      (** the microtask queue *)
  trace : list Obs
}.

(** What the module does while the host is inside one of its entry points,
    or in a task of its own: call one of the host's slots, or throw. *)
Inductive ModAct :=
| MPersist (archive : list Z)     (** [module.persist(archive)] *)
| MExit                           (** [module.exit()] *)
| MLog (args : list string)       (** [module.log] / [module.print] *)
| MWarn (args : list string)      (** [module.warn] *)
| MErr (args : list string)       (** [module.err] / [module.printErr] *)
| MThrow (e : Exn).

(** The module's behaviour inside [_packFsToBundle] and [_requestExit]. *)
Record ModuleBeh := mkModuleBeh {
  on_packFsToBundle : list ModAct;
  on_requestExit : list ModAct
}.

(** ** [JSON.stringify(args)] for an array of strings *)

Definition backslash : Ascii.ascii := Ascii.ascii_of_nat 92.
Definition dquote : Ascii.ascii := Ascii.ascii_of_nat 34.

Definition hex_digit (n : nat) : Ascii.ascii :=
  if Nat.ltb n 10 then Ascii.ascii_of_nat (48 + n) else Ascii.ascii_of_nat (87 + n).

Definition json_escape (c : Ascii.ascii) : string :=
  let n := Ascii.nat_of_ascii c in
  if Nat.eqb n 34 then String backslash (String dquote EmptyString)
  else if Nat.eqb n 92 then String backslash (String backslash EmptyString)
  else if Nat.eqb n 8 then String backslash "b"
  else if Nat.eqb n 12 then String backslash "f"
  else if Nat.eqb n 10 then String backslash "n"
  else if Nat.eqb n 13 then String backslash "r"
  else if Nat.eqb n 9 then String backslash "t"
  else if Nat.ltb n 32 then
    String backslash (String.append "u00"
      (String (hex_digit (n / 16)) (String (hex_digit (n mod 16)) EmptyString)))
  else String c EmptyString.

Fixpoint json_escape_all (s : string) : string :=
  match s with
  | EmptyString => EmptyString
  | String c rest => String.append (json_escape c) (json_escape_all rest)
  end.

Definition json_string (s : string) : string :=
  String dquote (String.append (json_escape_all s) (String dquote EmptyString)).

Definition json_stringify (args : list string) : string :=
  String.append "[" (String.append (String.concat "," (map json_string args)) "]").

(** The fragment [startupErrFn] appends: [JSON.stringify(args) + "\n"]. *)
Definition newline : string := String (Ascii.ascii_of_nat 10) EmptyString.
Definition fragment (args : list string) : string := String.append (json_stringify args) newline.

(** ** World updates *)

Definition emit (o : Obs) (w : World) : World :=
  mkWorld (store w) (next_id w) (persistPromise w) (exitPromise w) (slot_persist w)
          (slot_exit w) (err_sink w) (startupErrorLog w) (reactions w) (trace w ++ [o]).

(** [new Promise(...)]: a fresh pending promise. *)
Definition alloc (w : World) : nat * World :=
  (next_id w,
   mkWorld (<[next_id w := Pending]> (store w)) (S (next_id w)) (persistPromise w)
           (exitPromise w) (slot_persist w) (slot_exit w) (err_sink w)
           (startupErrorLog w) (reactions w) (trace w)).

(** [resolve] / [reject]: only a pending promise changes. *)
Definition settle (h : nat) (st : PState) (w : World) : World :=
  match store w !! h with
  | Some Pending =>
      emit (Settled h st)
        (mkWorld (<[h := st]> (store w)) (next_id w) (persistPromise w) (exitPromise w)
                 (slot_persist w) (slot_exit w) (err_sink w) (startupErrorLog w)
                 (reactions w) (trace w))
  | _ => w
  end.

Definition set_slot_persist (o : option nat) (w : World) : World :=
  mkWorld (store w) (next_id w) (persistPromise w) (exitPromise w) o
          (slot_exit w) (err_sink w) (startupErrorLog w) (reactions w) (trace w).

Definition set_slot_exit (o : option nat) (w : World) : World :=
  mkWorld (store w) (next_id w) (persistPromise w) (exitPromise w) (slot_persist w)
          o (err_sink w) (startupErrorLog w) (reactions w) (trace w).

Definition set_persistPromise (h : nat) (w : World) : World :=
  mkWorld (store w) (next_id w) (Some h) (exitPromise w) (slot_persist w)
          (slot_exit w) (err_sink w) (startupErrorLog w) (reactions w) (trace w).

Definition set_exitPromise (h : nat) (w : World) : World :=
  mkWorld (store w) (next_id w) (persistPromise w) (Some h) (slot_persist w)
          (slot_exit w) (err_sink w) (startupErrorLog w) (reactions w) (trace w).

Definition set_reactions (rs : list Reaction) (w : World) : World :=
  mkWorld (store w) (next_id w) (persistPromise w) (exitPromise w) (slot_persist w)
          (slot_exit w) (err_sink w) (startupErrorLog w) rs (trace w).

Definition append_log (frag : string) (w : World) : World :=
  mkWorld (store w) (next_id w) (persistPromise w) (exitPromise w) (slot_persist w)
          (slot_exit w) (err_sink w) (String.append (startupErrorLog w) frag)
          (reactions w) (trace w).

(** Calling a slot that is not installed is calling [undefined]. *)
Definition not_a_function : Exn := JsError "TypeError: not a function".

(** The call [module.err(...args)] with the installed sink. [startupErrFn]
    also writes to [console.error], which is not observed here. *)
Definition call_err (args : list string) (w : World) : World :=
  match err_sink w with
  | StartupErrFn => append_log (fragment args) (emit (EvMessage "error" args) w)
  | ErrFn => emit (EvMessage "error" args) w
  end.

(** One module action; [Some e] when it throws. *)
Definition mod_act (a : ModAct) (w : World) : World * option Exn :=
  match a with
  | MPersist archive =>
      match slot_persist w with
      | Some h =>
          (* resolve(archive); delete this.module.persist; *)
          (set_slot_persist None (settle h (Fulfilled (VArchive archive)) (emit CbPersist w)), None)
      | None => (w, Some not_a_function)
      end
  | MExit =>
      match slot_exit w with
      | Some h => (settle h (Fulfilled VUndefined) (emit CbExit w), None)
      | None => (w, Some not_a_function)
      end
  | MLog args => (emit (EvMessage "log" args) w, None)
  | MWarn args => (emit (EvMessage "warn" args) w, None)
  | MErr args => (call_err args w, None)
  | MThrow e => (w, Some e)
  end.

(** Synchronous execution inside an entry point, up to the first throw. *)
Fixpoint run_sync (acts : list ModAct) (w : World) : World * option Exn :=
  match acts with
  | [] => (w, None)
  | a :: rest =>
      let '(w1, thrown) := mod_act a w in
      match thrown with
      | Some e => (w1, Some e)
      | None => run_sync rest w1
      end
  end.

(** [catch (e) { reject(e); }] around a request into the module. *)
Definition settle_thrown (h : nat) (thrown : option Exn) (w : World) : World :=
  match thrown with Some e => settle h (Rejected e) w | None => w end.

(** [persist()] *)
Definition persist (mb : ModuleBeh) (w : World) : World * nat :=
  match persistPromise w with
  | Some h => (w, h)
  | None =>
      let '(h, w1) := alloc w in
      let w2 := set_slot_persist (Some h) w1 in
      let '(w3, thrown) := run_sync (on_packFsToBundle mb) (emit ReqPackFsToBundle w2) in
      (set_persistPromise h (settle_thrown h thrown w3), h)
  end.

(** [exit()]: [new Promise(resolve => { module.exit = resolve;
    module._requestExit(); }).then(() => { this.events().fireExit(); })] *)
Definition exit (mb : ModuleBeh) (w : World) : World * nat :=
  match exitPromise w with
  | Some h => (w, h)
  | None =>
      let '(h0, w1) := alloc w in
      let w2 := set_slot_exit (Some h0) w1 in
      let '(w3, thrown) := run_sync (on_requestExit mb) (emit ReqRequestExit w2) in
      let w4 := settle_thrown h0 thrown w3 in
      let '(h1, w5) := alloc w4 in
      let w6 := set_reactions (reactions w5 ++ [ThenFireExit h0 h1]) w5 in
      (set_exitPromise h1 w6, h1)
  end.

(** Running one reaction whose source has settled; [None] if it has not. *)
Definition run_reaction (r : Reaction) (w : World) : option World :=
  match r with
  | ThenFireExit src dst =>
      match store w !! src with
      | Some (Fulfilled _) => Some (settle dst (Fulfilled VUndefined) (emit EvExit w))
      | Some (Rejected e) => Some (settle dst (Rejected e) w)
      | _ => None
      end
  end.

(** The microtask checkpoint after a task: run the ready reactions. *)
Fixpoint drain_list (rs : list Reaction) (w : World) : World :=
  match rs with
  | [] => w
  | r :: rest =>
      match run_reaction r w with
      | Some w' => drain_list rest w'
      | None => drain_list rest (set_reactions (reactions w ++ [r]) w)
      end
  end.

Definition drain (w : World) : World := drain_list (reactions w) (set_reactions [] w).

(** Tasks of the event loop: a caller invokes [persist()] or [exit()], or
    the module runs a task of its own (its main loop, a timer). An
    exception escaping a module task does not reach this interface. *)
Inductive Task := HostPersist | HostExit | ModuleTask (acts : list ModAct).

Definition step (mb : ModuleBeh) (t : Task) (w : World) : World :=
  drain (match t with
         | HostPersist => fst (persist mb w)
         | HostExit => fst (exit mb w)
         | ModuleTask acts => fst (run_sync acts w)
         end).

Fixpoint run (mb : ModuleBeh) (ts : list Task) (w : World) : World :=
  match ts with
  | [] => w
  | t :: rest => run mb rest (step mb t w)
  end.

(** The interface right after a successful startup. *)
Definition init_world : World := mkWorld ∅ 0 None None None None ErrFn "" [] [].

(** ** Properties of worlds and traces used by the proofs *)

Definition is_fulfilled (o : option PState) : Prop :=
  match o with Some (Fulfilled _) => True | _ => False end.

Definition is_req_pack (o : Obs) : bool :=
  match o with ReqPackFsToBundle => true | _ => false end.

Definition is_req_exit (o : Obs) : bool :=
  match o with ReqRequestExit => true | _ => false end.

Definition count_obs (f : Obs -> bool) (tr : list Obs) : nat := length (List.filter f tr).

(** Every Exit event on the bus comes after a termination callback. *)
Definition exit_after_cb (tr : list Obs) : Prop :=
  forall l1 l2, tr = l1 ++ EvExit :: l2 -> In CbExit l1.

(** Every fulfilment of promise [h] comes after an Exit event. *)
Definition settled_after_exit (h : nat) (tr : list Obs) : Prop :=
  forall l1 l2 v, tr = l1 ++ Settled h (Fulfilled v) :: l2 -> In EvExit l1.

(** The invariant of an interface's world between two tasks. *)
Record Inv (w : World) : Prop := {
  inv_fresh : forall h, (next_id w <= h)%nat -> store w !! h = None;
  inv_settled_fresh : forall h st, In (Settled h st) (trace w) -> (h < next_id w)%nat;
  inv_persist :
    match persistPromise w with
    | None => slot_persist w = None
    | Some hp => (hp < next_id w)%nat /\ (slot_persist w = None \/ slot_persist w = Some hp)
    end;
  inv_exit :
    match exitPromise w with
    | None => slot_exit w = None /\ reactions w = [] /\ ~ In EvExit (trace w)
    | Some h1 => exists h0,
        slot_exit w = Some h0 /\ h0 <> h1 /\ (h0 < next_id w)%nat /\ (h1 < next_id w)%nat /\
        persistPromise w <> Some h0 /\ persistPromise w <> Some h1 /\
        (reactions w = [] \/
         (reactions w = [ThenFireExit h0 h1] /\ store w !! h1 = Some Pending)) /\
        (is_fulfilled (store w !! h0) -> In CbExit (trace w)) /\
        (In EvExit (trace w) -> is_fulfilled (store w !! h0)) /\
        settled_after_exit h1 (trace w)
    end;
  inv_exit_cb : exit_after_cb (trace w);
  inv_count_pack : count_obs is_req_pack (trace w) = if persistPromise w then 1%nat else 0%nat;
  inv_count_exit : count_obs is_req_exit (trace w) = if exitPromise w then 1%nat else 0%nat
}.

(** How a synchronous run inside the module may change the store: a
    pending promise behind [module.persist] or [module.exit] gets fulfilled. *)
Definition store_step (w w' : World) : Prop :=
  forall h, store w' !! h = store w !! h \/
    (store w !! h = Some Pending /\
     ((slot_persist w = Some h /\ exists a, store w' !! h = Some (Fulfilled (VArchive a))) \/
      (slot_exit w = Some h /\ store w' !! h = Some (Fulfilled VUndefined) /\
       In CbExit (trace w')))).

(** Observations a synchronous run inside the module may add. *)
Definition obs_ok (w : World) (o : Obs) : Prop :=
  o <> EvExit /\ is_req_pack o = false /\ is_req_exit o = false /\
  forall h st, o = Settled h st -> slot_persist w = Some h \/ slot_exit w = Some h.

Definition sync_step (w w' : World) : Prop :=
  next_id w' = next_id w /\ persistPromise w' = persistPromise w /\
  exitPromise w' = exitPromise w /\ slot_exit w' = slot_exit w /\
  reactions w' = reactions w /\ err_sink w' = err_sink w /\
  (slot_persist w' = slot_persist w \/ slot_persist w' = None) /\
  store_step w w' /\
  exists l, trace w' = trace w ++ l /\ Forall (obs_ok w) l.

(** Settled promises stay settled. *)
Definition settled_stable (w w' : World) : Prop :=
  forall h st, store w !! h = Some st -> st <> Pending -> store w' !! h = Some st.

(** The arguments of every [error] message fired on the bus. *)
Fixpoint errors_of (tr : list Obs) : list (list string) :=
  match tr with
  | [] => []
  | EvMessage level args :: rest =>
      if String.eqb level "error" then args :: errors_of rest else errors_of rest
  | _ :: rest => errors_of rest
  end.

Definition frag_concat (l : list (list string)) : string :=
  fold_right (fun args acc => String.append (fragment args) acc) EmptyString l.

(** While [startupErrFn] is installed, the log is the fragments of every
    error diagnostic emitted, in emission order. *)
Definition log_tracks (w : World) : Prop :=
  err_sink w = StartupErrFn -> startupErrorLog w = frag_concat (errors_of (trace w)).

(** Diagnostics the module may print before a request fails. *)
Definition is_diag (a : ModAct) : bool :=
  match a with MLog _ | MWarn _ | MErr _ => true | _ => false end.

End Lifecycle.

Module Startup.
Import Lifecycle.

(** What the module does during the startup handshake: inside
    [wasm.instantiate(module)], inside [callMain([])] and inside
    [_runRuntime()] (all before the log is inspected); its behaviour inside
    later requests; and the tasks that run after [DosDirect] has called
    [ci.exit()]. *)
Record StartupBeh := mkStartupBeh {
  sb_instantiate : list ModAct;
  sb_callMain : list ModAct;
  sb_runRuntime : list ModAct;
  sb_module : ModuleBeh;
  sb_later : list Task
}.

(** How the promise returned by [DosDirect] ends: fulfilled with the
    interface, rejected, or still pending after the given tasks. *)
Inductive StartupResult :=
| SReady (w : World)
| SFailed (e : Exn) (w : World)
| SPending (w : World).

Definition set_err_sink (s : Sink) (w : World) : World :=
  mkWorld (store w) (next_id w) (persistPromise w) (exitPromise w) (slot_persist w)
          (slot_exit w) s (startupErrorLog w) (reactions w) (trace w).

(** [let startupErrorLog = ""] and [module.err = startupErrFn]. *)
Definition startup_world : World := mkWorld ∅ 0 None None None None StartupErrFn "" [] [].

(** [await wasm.instantiate(module)], then the [new Promise] around
    [new DirectCommandInterface(...)]. The constructor calls
    [callMain([])], then [ready(this)], then [_runRuntime()]: a throw from
    [callMain] rejects the promise; a throw from [_runRuntime] reaches
    [reject(e)] after [resolve], which leaves the promise resolved. *)
Definition construct (sb : StartupBeh) : World * option Exn :=
  let '(w1, t1) := run_sync (sb_instantiate sb) startup_world in
  match t1 with
  | Some e => (w1, Some e)
  | None =>
      let '(w2, t2) := run_sync (sb_callMain sb) w1 in
      match t2 with
      | Some e => (w2, Some e)
      | None => (fst (run_sync (sb_runRuntime sb) w2), None)
      end
  end.

(** [await ci.exit()] over the tasks that follow: it resumes in the
    microtask checkpoint where the exit future settles; on fulfilment
    [throw new Error(startupErrorLog)] with the log at that point. *)
Fixpoint await_exit (mb : ModuleBeh) (h : nat) (ts : list Task) (w : World) : StartupResult :=
  match store w !! h with
  | Some (Fulfilled _) => SFailed (JsError (startupErrorLog w)) w
  | Some (Rejected e) => SFailed e w
  | _ =>
      match ts with
      | [] => SPending w
      | t :: rest => await_exit mb h rest (step mb t w)
      end
  end.

(** [DosDirect(wasm, bundles)] *)
Definition dos_direct (sb : StartupBeh) : StartupResult :=
  let '(wc, thrown) := construct sb in
  match thrown with
  | Some e => SFailed e wc
  | None =>
      if Nat.ltb 0 (String.length (startupErrorLog wc)) then
        let h := snd (exit (sb_module sb) wc) in
        await_exit (sb_module sb) h (sb_later sb) (step (sb_module sb) HostExit wc)
      else SReady (set_err_sink ErrFn wc)
  end.

(** The log grows by the fragments of the error diagnostics emitted. *)
Definition tracks (w w' : World) : Prop :=
  err_sink w' = err_sink w /\
  exists l, trace w' = trace w ++ l /\
            startupErrorLog w' = String.append (startupErrorLog w) (frag_concat (errors_of l)).

End Startup.

Module Screen.

Local Open Scope Z_scope.

(** What [screenshot()] reads from the module: [_getFrameWidth()],
    [_getFrameHeight()], [_getFrameRgba()] and the bytes of [HEAPU8]. *)
Record ModuleMem := mkMem {
  frame_width : Z;
  frame_height : Z;
  frame_rgba : Z;
  heapu8 : list Z
}.

(** A [Uint8ClampedArray] over the module's [ArrayBuffer]: a window of
    [byteLength] bytes from [byteOffset]; it owns no bytes of its own. *)
Record U8View := mkView { byteOffset : Z; byteLength : Z }.

(** An [ImageData] keeps the array it was constructed with as its [data]. *)
Record ImageData := mkImageData { data : U8View; width : Z; height : Z }.

(** [new Uint8ClampedArray(buffer, byteOffset, length)]; [None] is the
    [RangeError] thrown when the window does not fit the buffer. *)
Definition new_view (heap : list Z) (off len : Z) : option U8View :=
  if (0 <=? off) && (0 <=? len) && (off + len <=? Z.of_nat (length heap))
  then Some (mkView off len) else None.

(** Storing into a clamped array clamps the value to [0..255]. *)
Definition clamp (x : Z) : Z := Z.max 0 (Z.min 255 x).

(** [rgba[i] = x]: writes through to the buffer; out of range it is ignored. *)
Definition view_set (v : U8View) (i x : Z) (heap : list Z) : list Z :=
  if (0 <=? i) && (i <? byteLength v)
  then <[Z.to_nat (byteOffset v + i) := clamp x]> heap else heap.

(** The bytes a reader of the array sees, given the buffer's contents. *)
Definition view_bytes (heap : list Z) (v : U8View) : list Z :=
  take (Z.to_nat (byteLength v)) (drop (Z.to_nat (byteOffset v)) heap).

(** [for (let next = 3; next < rgba.byteLength; next = next + 4) rgba[next] = 255;]
    The loop runs at most [fuel] times; [byteLength] iterations suffice. *)
Fixpoint alpha_loop (fuel : nat) (rgba : U8View) (next : Z) (heap : list Z) : list Z :=
  match fuel with
  | O => heap
  | S f =>
      if next <? byteLength rgba
      then alpha_loop f rgba (next + 4) (view_set rgba next 255 heap)
      else heap
  end.

(** [new ImageData(rgba, width, height)]: [None] when it throws (a zero
    size, or a data length other than [width * height * 4]). *)
Definition new_image (rgba : U8View) (w h : Z) : option ImageData :=
  if (0 <? w) && (0 <? h) && (byteLength rgba =? w * h * 4)
  then Some (mkImageData rgba w h) else None.

(** [screenshot()]: the image ([None] when the call throws) and the
    module's memory after the call. The loop runs before
    [new ImageData(...)], so its stores stay in the memory when that
    constructor throws. *)
Definition screenshot (m : ModuleMem) : option ImageData * list Z :=
  let width := frame_width m in
  let height := frame_height m in
  let rgbaPtr := frame_rgba m in
  match new_view (heapu8 m) rgbaPtr (width * height * 4) with
  | None => (None, heapu8 m)
  | Some rgba =>
      let heap' := alpha_loop (Z.to_nat (byteLength rgba)) rgba 3 (heapu8 m) in
      (new_image rgba width height, heap')
  end.

(** The pixel data of an image as read from the module memory [heap]. *)
Definition image_bytes (heap : list Z) (img : ImageData) : list Z := view_bytes heap (data img).

(** The module writes one byte of its memory (its renderer drawing the
    next frame). *)
Definition mem_write (addr x : Z) (heap : list Z) : list Z := <[Z.to_nat addr := x]> heap.

(** Whether the alpha loop started at [next] stores 255 at buffer address [k]:
    [k] lies in the window, at or after [next], in steps of 4. *)
Definition alpha_at (v : U8View) (next k : Z) : bool :=
  (byteOffset v + next <=? k) && (k <? byteOffset v + byteLength v)
  && ((k - byteOffset v - next) mod 4 =? 0).

End Screen.

Module KeyHistory.
Import Keys.
Local Open Scope Z_scope.

(** The pressed flags of the [_addKey] calls the module received for
    [keyCode], in order. *)
Fixpoint key_flags (keyCode : Z) (calls : list ModuleCall) : list bool :=
  match calls with
  | [] => []
  | AddKey k p _ :: rest =>
      if Z.eqb k keyCode then p :: key_flags keyCode rest else key_flags keyCode rest
  | _ :: rest => key_flags keyCode rest
  end.

(** The state the module was last told for [keyCode]; released if never. *)
Definition last_flag (keyCode : Z) (calls : list ModuleCall) : bool :=
  List.last (key_flags keyCode calls) false.

(** [b], [negb b], [b], ...: each flag differs from the one before it. *)
Fixpoint alternating (b : bool) (l : list bool) : bool :=
  match l with
  | [] => true
  | x :: rest => Bool.eqb x b && alternating (negb b) rest
  end.

(** The key-state invariant: the matrix holds, for every code, the last
    state forwarded to the module, and the forwarded states alternate. *)
Definition key_inv (ci : KeyCI) : Prop :=
  forall k, is_pressed (keyMatrix ci) k = last_flag k (sent ci) /\
            alternating true (key_flags k (sent ci)) = true.

End KeyHistory.

Module Traces.
Import Lifecycle.

Definition is_ev_exit (o : Obs) : bool :=
  match o with EvExit => true | _ => false end.

(** The number of line feeds (character 10) in a string. *)
Fixpoint count_newlines (s : string) : nat :=
  match s with
  | EmptyString => 0
  | String c rest =>
      (if Nat.eqb (Ascii.nat_of_ascii c) 10 then 1 else 0) + count_newlines rest
  end.

(** While [module.persist] is installed for promise [h], [h] has not been
    fulfilled, and the installed slots name promises already created, the
    persist slot never the exit one. *)
Definition persist_slot_ok (w : World) : Prop :=
  (forall h, slot_persist w = Some h ->
     (h < next_id w)%nat /\ slot_exit w <> Some h /\
     (store w !! h = Some Pending \/ exists e, store w !! h = Some (Rejected e))) /\
  (forall h, slot_exit w = Some h -> (h < next_id w)%nat).

End Traces.

Module Callbacks.
Local Open Scope Z_scope.

(** [TypedArray.prototype.slice(start, end)]: negative arguments count
    from the end, both are clamped to [0..length], and the result is a new
    array holding a copy of the elements. *)
Definition rel_index (len x : Z) : Z :=
  if x <? 0 then Z.max (len + x) 0 else Z.min x len.

Definition ta_slice {A} (l : list A) (start end_ : Z) : list A :=
  let len := Z.of_nat (length l) in
  let k := rel_index len start in
  let final := rel_index len end_ in
  take (Z.to_nat (Z.max (final - k) 0)) (drop (Z.to_nat k) l).

(** Events [CommandInterfaceEventsImpl] is asked to fire by the module's
    callbacks. *)
Inductive CiEvent :=
| FrameSizeEv (width height : Z)
| FrameEv (rgba : list Z)
| SoundPushEv (samples : list Z).

(** The module as the callbacks see it: [_getFrameWidth()],
    [_getFrameHeight()], [HEAPU8] (bytes) and [HEAPF32] (one 32-bit
    pattern per element); with [this.freq] and the fired events. *)
Record CbState := mkCbState {
  cb_width : Z;
  cb_height : Z;
  cb_heapU8 : list Z;
  cb_heapF32 : list Z;
  freq : Z;
  fired : list CiEvent
}.

Definition fire (e : CiEvent) (s : CbState) : CbState :=
  mkCbState (cb_width s) (cb_height s) (cb_heapU8 s) (cb_heapF32 s) (freq s) (fired s ++ [e]).

(** [module.onFrameSize(width, height)] *)
Definition onFrameSize (width height : Z) (s : CbState) : CbState :=
  fire (FrameSizeEv width height) s.

(** [module.onFrame(rgbaPtr)]:
    [HEAPU8.slice(rgbaPtr, rgbaPtr + this.width() * this.height() * 4)] *)
Definition onFrame (rgbaPtr : Z) (s : CbState) : CbState :=
  fire (FrameEv (ta_slice (cb_heapU8 s) rgbaPtr (rgbaPtr + cb_width s * cb_height s * 4))) s.

(** [module.onSoundInit(freq)] *)
Definition onSoundInit (f : Z) (s : CbState) : CbState :=
  mkCbState (cb_width s) (cb_height s) (cb_heapU8 s) (cb_heapF32 s) f (fired s).

(** [module.onSoundPush(samples, numSamples)]:
    [HEAPF32.slice(samples / 4, samples / 4 + numSamples)]. The division is
    a JS number division and [slice] truncates its arguments toward zero,
    so the bounds are [Z.quot samples 4] and [Z.quot (samples + 4 * numSamples) 4]. *)
Definition onSoundPush (samples numSamples : Z) (s : CbState) : CbState :=
  fire (SoundPushEv (ta_slice (cb_heapF32 s) (Z.quot samples 4)
                              (Z.quot (samples + 4 * numSamples) 4))) s.

(** [soundFrequency()] *)
Definition soundFrequency (s : CbState) : Z := freq s.

(** The callbacks a module makes, in order. *)
Inductive Callback :=
| CFrameSize (width height : Z)
| CFrame (rgbaPtr : Z)
| CSoundInit (f : Z)
| CSoundPush (samples numSamples : Z).

Definition callback_step (c : Callback) (s : CbState) : CbState :=
  match c with
  | CFrameSize w h => onFrameSize w h s
  | CFrame p => onFrame p s
  | CSoundInit f => onSoundInit f s
  | CSoundPush p n => onSoundPush p n s
  end.

Fixpoint run_callbacks (cs : list Callback) (s : CbState) : CbState :=
  match cs with
  | [] => s
  | c :: rest => run_callbacks rest (callback_step c s)
  end.

(** [private freq: number = 0], nothing fired yet. *)
Definition cb_init (width height : Z) (heapU8 heapF32 : list Z) : CbState :=
  mkCbState width height heapU8 heapF32 0 [].

(** The value of the last [onSoundInit] among [cs], or [d] if none. *)
Fixpoint last_sound_init (d : Z) (cs : list Callback) : Z :=
  match cs with
  | [] => d
  | CSoundInit f :: rest => last_sound_init f rest
  | _ :: rest => last_sound_init d rest
  end.

End Callbacks.

(** * Proofs *)

Module KeysProofs.
Import Keys.
Local Open Scope Z_scope.

Example addKey_absorbs :
  sent (sendKeyEvent 5 7 true (sendKeyEvent 3 7 true (fresh 0))) = [AddKey 7 true 3].
Proof. reflexivity. Qed.

Lemma is_pressed_insert (m : gmap Z bool) k p j :
  is_pressed (<[k:=p]> m) j = record (is_pressed m) k p j.
Proof.
  unfold record, is_pressed. destruct (Z.eqb_spec j k) as [->|Hne].
  - rewrite lookup_insert_eq. by destruct p.
  - by rewrite lookup_insert_ne by congruence.
Qed.

Lemma run_key_events_spec calls : forall ci (st : Z -> bool),
  (forall j, is_pressed (keyMatrix ci) j = st j) ->
  startedAt (run_key_events calls ci) = startedAt ci /\
  sent (run_key_events calls ci) = sent ci ++ forwarded_spec (startedAt ci) st calls /\
  (forall j, is_pressed (keyMatrix (run_key_events calls ci)) j = last_state st calls j).
Proof.
  induction calls as [|[n k p] rest IH]; intros ci st Hst; simpl.
  - rewrite app_nil_r. auto.
  - unfold sendKeyEvent, addKey; simpl. rewrite (Hst k).
    destruct (Bool.eqb (st k) p) eqn:E.
    + apply Bool.eqb_prop in E.
      destruct (IH ci (record st k p)) as (H1 & H2 & H3).
      { intros j. unfold record. destruct (Z.eqb_spec j k) as [->|]; [congruence|auto]. }
      simpl. auto.
    + destruct (IH (mkKeyCI (startedAt ci) (<[k:=p]> (keyMatrix ci))
                      (sent ci ++ [AddKey k p (n - startedAt ci)])) (record st k p))
        as (H1 & H2 & H3).
      { intros j. simpl. rewrite is_pressed_insert. unfold record.
        destruct (j =? k); auto. }
      simpl in *. rewrite H2, <- app_assoc. auto.
Qed.

(** C1. [sendKeyEvent(code, pressed)] forwards [_addKey(code, pressed, t)]
    and records [pressed] in the key matrix iff [pressed] differs from the
    matrix's state for [code] (absent = released); otherwise it returns the
    interface unchanged (nothing forwarded, matrix untouched). Over any run
    of calls, the forwarded calls are exactly those whose pressed value
    differs from the last state recorded for their code, and the matrix
    ends with the last state per code. *)
Theorem sendKeyEvent_forwards_iff_changed :
  (forall now k p ci,
     sendKeyEvent now k p ci =
       if Bool.eqb (is_pressed (keyMatrix ci) k) p then ci
       else mkKeyCI (startedAt ci) (<[k:=p]> (keyMatrix ci))
              (sent ci ++ [AddKey k p (now - startedAt ci)])) /\
  (forall now k ci, sendKeyEvent now k (is_pressed (keyMatrix ci) k) ci = ci) /\
  (forall calls ci,
     sent (run_key_events calls ci)
       = sent ci ++ forwarded_spec (startedAt ci) (is_pressed (keyMatrix ci)) calls /\
     forall j, is_pressed (keyMatrix (run_key_events calls ci)) j
       = last_state (is_pressed (keyMatrix ci)) calls j).
Proof.
  split; [|split].
  - reflexivity.
  - intros now k ci. unfold sendKeyEvent, addKey.
    by rewrite Bool.eqb_reflx.
  - intros calls ci.
    destruct (run_key_events_spec calls ci (is_pressed (keyMatrix ci)))
      as (_ & H2 & H3); auto.
Qed.

Lemma fold_addKey_sent (ks : list Z) (p : bool) (T : Z) : forall ci,
  startedAt (fold_left (fun c k => addKey k p T c) ks ci) = startedAt ci /\
  exists l, sent (fold_left (fun c k => addKey k p T c) ks ci) = sent ci ++ l /\
            Forall (fun e => timeMs_of e = T) l.
Proof.
  induction ks as [|k ks IH]; intros ci; simpl.
  - split; [done|]. exists []. rewrite app_nil_r. auto.
  - destruct (IH (addKey k p T ci)) as (Hs & l & Hl & Hf).
    unfold addKey in *. destruct (Bool.eqb _ p); simpl in *.
    + split; [done|]. exists l. auto.
    + split; [done|]. exists ([AddKey k p T] ++ l).
      rewrite Hl, app_assoc. split; [done|]. by constructor.
Qed.

Lemma host_step_appends now cmd ci :
  startedAt (host_step now cmd ci) = startedAt ci /\
  exists l, sent (host_step now cmd ci) = sent ci ++ l /\
    Forall (fun e => now - startedAt ci <= timeMs_of e <= now - startedAt ci + cmd_delay cmd) l.
Proof.
  destruct cmd as [k p|ks|x y|b p]; unfold cmd_delay; simpl.
  - unfold sendKeyEvent, addKey. destruct (Bool.eqb _ p); simpl.
    + split; [done|]. exists []. rewrite app_nil_r. auto.
    + split; [done|]. exists [AddKey k p (now - startedAt ci)]. split; [done|].
      constructor; [simpl; lia | constructor].
  - unfold simulateKeyPress.
    destruct (fold_addKey_sent ks true (now - startedAt ci) ci) as (Hs1 & l1 & H1 & F1).
    destruct (fold_addKey_sent ks false (now - startedAt ci + 16)
                (fold_left (fun c k => addKey k true (now - startedAt ci) c) ks ci))
      as (Hs2 & l2 & H2 & F2).
    split; [congruence|]. exists (l1 ++ l2). rewrite H2, H1, app_assoc. split; [done|].
    apply Forall_app. split.
    + eapply Forall_impl; [exact F1|]. simpl. lia.
    + eapply Forall_impl; [exact F2|]. simpl. lia.
  - split; [done|]. eexists. split; [reflexivity|]. constructor; [simpl; lia|constructor].
  - split; [done|]. eexists. split; [reflexivity|]. constructor; [simpl; lia|constructor].
Qed.

Lemma run_host_app c1 c2 ci : run_host (c1 ++ c2) ci = run_host c2 (run_host c1 ci).
Proof.
  revert ci. induction c1 as [|[n c] c1 IH]; intros ci; simpl; auto.
Qed.

Lemma run_host_appends cmds : forall ci,
  startedAt (run_host cmds ci) = startedAt ci /\
  exists l, sent (run_host cmds ci) = sent ci ++ l.
Proof.
  induction cmds as [|[n c] cmds IH]; intros ci; simpl.
  - split; [done|]. exists []. by rewrite app_nil_r.
  - destruct (host_step_appends n c ci) as (Hs & l1 & H1 & _).
    destruct (IH (host_step n c ci)) as (Hs2 & l2 & H2).
    split; [congruence|]. exists (l1 ++ l2). by rewrite H2, H1, app_assoc.
Qed.

Lemma ForallOrdPairs_app {A} (R : A -> A -> Prop) l1 l2 :
  ForallOrdPairs R l1 -> ForallOrdPairs R l2 ->
  (forall x y, In x l1 -> In y l2 -> R x y) ->
  ForallOrdPairs R (l1 ++ l2).
Proof.
  induction l1 as [|a l1 IH]; intros H1 H2 Hx; simpl; auto.
  inversion H1 as [|? ? Ha Hl1]; subst. constructor.
  - apply Forall_app. split; [exact Ha|]. apply List.Forall_forall. intros y Hy.
    apply Hx; simpl; auto.
  - apply IH; auto. intros x y Hx1 Hy. apply Hx; simpl; auto.
Qed.

Lemma ForallOrdPairs_lookup {A} (R : A -> A -> Prop) (l : list A) :
  ForallOrdPairs R l ->
  forall i j x y, (i < j)%nat -> l !! i = Some x -> l !! j = Some y -> R x y.
Proof.
  induction 1 as [|a l Ha Hl IH]; intros i j x y Hij Hi Hj; [done|].
  destruct i as [|i], j as [|j]; simpl in *; try lia.
  - injection Hi as <-. eapply List.Forall_forall; [exact Ha|].
    apply list_elem_of_In, list_elem_of_lookup. eauto.
  - apply (IH i j); auto. lia.
Qed.

Lemma run_host_timestamps (d : Z) cmds : forall ci B,
  clock_nondecreasing cmds = true ->
  Forall (fun nc => cmd_delay (snd nc) <= d) cmds -> 0 <= d ->
  head_after B (startedAt ci) cmds ->
  Forall (fun e => timeMs_of e <= B + d) (sent ci) ->
  ForallOrdPairs (fun e1 e2 => timeMs_of e1 <= timeMs_of e2 + d) (sent ci) ->
  ForallOrdPairs (fun e1 e2 => timeMs_of e1 <= timeMs_of e2 + d) (sent (run_host cmds ci)).
Proof.
  induction cmds as [|[n c] cmds IH]; intros ci B Hclk Hd Hd0 Hhead Hbound Hpairs; simpl; auto.
  inversion Hd as [|? ? Hdc Hdrest]; subst. simpl in Hdc, Hhead.
  destruct (host_step_appends n c ci) as (Hs & l & Hl & Hf).
  apply (IH _ (n - startedAt ci)).
  - destruct cmds as [|[n2 c2] cmds]; [done|]. simpl in Hclk.
    apply andb_prop in Hclk as [_ ?]. done.
  - done.
  - done.
  - destruct cmds as [|[n2 c2] cmds]; simpl; [done|]. rewrite Hs.
    simpl in Hclk. apply andb_prop in Hclk as [Hle _]. apply Z.leb_le in Hle. lia.
  - rewrite Hl. apply Forall_app. split.
    + eapply Forall_impl; [exact Hbound|]. simpl. lia.
    + eapply Forall_impl; [exact Hf|]. simpl. lia.
  - rewrite Hl. apply ForallOrdPairs_app; auto.
    + clear Hl. induction l as [|e l IHl]; constructor;
        inversion Hf as [|? ? He Hrest]; subst.
      * apply List.Forall_forall. intros y Hy.
        pose proof (proj1 (List.Forall_forall _ _) Hrest y Hy). simpl in *. lia.
      * auto.
    + intros x y Hx Hy. eapply List.Forall_forall in Hx; [|exact Hbound].
      eapply List.Forall_forall in Hy; [|exact Hf]. simpl in *. lia.
Qed.

Lemma run_host_timestamps_fresh (d : Z) s cmds :
  clock_nondecreasing cmds = true ->
  Forall (fun nc => cmd_delay (snd nc) <= d) cmds -> 0 <= d ->
  forall i j e1 e2, (i < j)%nat ->
    sent (run_host cmds (fresh s)) !! i = Some e1 ->
    sent (run_host cmds (fresh s)) !! j = Some e2 ->
    timeMs_of e1 <= timeMs_of e2 + d.
Proof.
  intros Hclk Hd Hd0. apply ForallOrdPairs_lookup.
  destruct cmds as [|[n c] rest]; [constructor|].
  apply (run_host_timestamps d _ _ (n - s)); simpl; auto; try constructor; lia.
Qed.

(** Evaluates [is_pressed] on a key matrix built by [addKey] inserts. *)
Ltac key_eval :=
  simpl;
  repeat match goal with
  | |- context [is_pressed (<[_ := _]> _) _] => rewrite is_pressed_insert; unfold record; cbv beta
  | H : ?x <> ?y |- context [?x =? ?y] => rewrite (proj2 (Z.eqb_neq x y) H)
  | |- context [?x =? ?x] => rewrite Z.eqb_refl
  | H : is_pressed _ _ = _ |- _ => rewrite H
  end; done.

Lemma addKey_fwd k p t ci :
  is_pressed (keyMatrix ci) k = negb p ->
  addKey k p t ci = mkKeyCI (startedAt ci) (<[k := p]> (keyMatrix ci))
                            (sent ci ++ [AddKey k p t]).
Proof. intros H. unfold addKey. rewrite H. by destruct p. Qed.

Lemma addKey_abs k p t ci : is_pressed (keyMatrix ci) k = p -> addKey k p t ci = ci.
Proof. intros H. unfold addKey. rewrite H. by rewrite Bool.eqb_reflx. Qed.

(** C6 (counterexample). With the same code twice, [simulateKeyPress(3, 3)]
    forwards two events, not four: the second press and the second release
    are absorbed by the key matrix. *)
Lemma simulateKeyPress_same_code_two_events :
  sent (simulateKeyPress 10 [3; 3] (fresh 0)) = [AddKey 3 true 10; AddKey 3 false 26] /\
  sent (simulateKeyPress 10 [3; 3] (fresh 0))
    <> [AddKey 3 true 10; AddKey 3 true 10; AddKey 3 false 26; AddKey 3 false 26].
Proof. split; [reflexivity | discriminate]. Qed.

(** C6 (amended). [simulateKeyPress(a, b)] at relative time [t], from any
    key matrix: an event that would not change the matrix is absorbed.
    When [a <> b] it forwards press(a,t) unless [a] is recorded as
    pressed, then press(b,t) unless [b] is, then release(a,t+16) and
    release(b,t+16); so with neither pressed it forwards the four events
    press(a,t), press(b,t), release(a,t+16), release(b,t+16) in this
    order. When [a = b] it forwards press(a,t) (only if [a] was not
    pressed) followed by release(a,t+16). *)
Theorem simulateKeyPress_two_codes now a b ci :
  (a <> b ->
   sent (simulateKeyPress now [a; b] ci)
     = sent ci ++ (if is_pressed (keyMatrix ci) a then []
                   else [AddKey a true (now - startedAt ci)])
               ++ (if is_pressed (keyMatrix ci) b then []
                   else [AddKey b true (now - startedAt ci)])
               ++ [AddKey a false (now - startedAt ci + 16);
                   AddKey b false (now - startedAt ci + 16)]) /\
  (a = b ->
   sent (simulateKeyPress now [a; b] ci)
     = sent ci ++ (if is_pressed (keyMatrix ci) a then []
                   else [AddKey a true (now - startedAt ci)])
               ++ [AddKey a false (now - startedAt ci + 16)]).
Proof.
  split.
  - intros Hab. unfold simulateKeyPress; cbn [fold_left].
    assert (Hba : b <> a) by congruence.
    destruct (is_pressed (keyMatrix ci) a) eqn:Ha;
      [rewrite (addKey_abs a true _ ci) by key_eval|rewrite (addKey_fwd a true _ ci) by key_eval];
      (destruct (is_pressed (keyMatrix ci) b) eqn:Hb;
       [rewrite (addKey_abs b true) by key_eval|rewrite (addKey_fwd b true) by key_eval]);
      rewrite (addKey_fwd a false) by key_eval;
      rewrite (addKey_fwd b false) by key_eval;
      simpl; rewrite <- ?app_assoc; reflexivity.
  - intros <-. unfold simulateKeyPress; cbn [fold_left].
    destruct (is_pressed (keyMatrix ci) a) eqn:Ha.
    + rewrite (addKey_abs a true _ ci) by key_eval. rewrite (addKey_abs a true _ ci) by key_eval.
      rewrite (addKey_fwd a false _ ci) by key_eval.
      rewrite (addKey_abs a false) by key_eval.
      reflexivity.
    + rewrite (addKey_fwd a true _ ci) by key_eval.
      rewrite (addKey_abs a true _ (mkKeyCI _ _ _)) by key_eval.
      rewrite (addKey_fwd a false _ (mkKeyCI _ _ _)) by key_eval.
      rewrite (addKey_abs a false) by key_eval.
      simpl. rewrite <- !app_assoc. reflexivity.
Qed.

Lemma simulateKeyPress_two_codes_witness :
  sent (simulateKeyPress 10 [3; 4] (fresh 0))
    = [AddKey 3 true 10; AddKey 4 true 10; AddKey 3 false 26; AddKey 4 false 26] /\
  sent (simulateKeyPress 10 [3; 4] (sendKeyEvent 5 3 true (fresh 0)))
    = [AddKey 3 true 5; AddKey 4 true 10; AddKey 3 false 26; AddKey 4 false 26] /\
  sent (simulateKeyPress 10 [3; 3] (fresh 0)) = [AddKey 3 true 10; AddKey 3 false 26].
Proof.
  split; [|split].
  - rewrite (proj1 (simulateKeyPress_two_codes 10 3 4 (fresh 0))) by lia.
    vm_compute. reflexivity.
  - rewrite (proj1 (simulateKeyPress_two_codes 10 3 4 (sendKeyEvent 5 3 true (fresh 0)))) by lia.
    vm_compute. reflexivity.
  - rewrite (proj2 (simulateKeyPress_two_codes 10 3 3 (fresh 0))) by reflexivity.
    vm_compute. reflexivity.
Defined.

(** C9 (counterexample). With a non-decreasing clock (100, then 101), a
    [simulateKeyPress(1)] followed by [sendKeyEvent(2, true)] forwards
    timestamps 100, 116, 101: the release scheduled at t+16 precedes a
    later event with a smaller timestamp. *)
Lemma host_timestamps_not_monotone :
  clock_nondecreasing [(100, CKeyPress [1]); (101, CKeyEvent 2 true)] = true /\
  sent (run_host [(100, CKeyPress [1]); (101, CKeyEvent 2 true)] (fresh 0))
    = [AddKey 1 true 100; AddKey 1 false 116; AddKey 2 true 101] /\
  ~ (timeMs_of (AddKey 1 false 116) <= timeMs_of (AddKey 2 true 101)).
Proof. split; [reflexivity | split; [reflexivity | simpl; lia]]. Qed.

(** C9 (amended). Events reach the module in the order the host issued the
    commands: the events of a prefix of the commands are a prefix of the
    events of the whole run. When the clock readings are non-decreasing,
    an earlier forwarded event's timestamp is at most a later one's plus 16
    (the delay of [simulateKeyPress]'s releases), and with no
    [simulateKeyPress] among the commands the timestamps are
    non-decreasing. *)
Theorem host_events_fifo_timestamps s cmds :
  (forall c1 c2, cmds = c1 ++ c2 ->
     exists l, sent (run_host cmds (fresh s)) = sent (run_host c1 (fresh s)) ++ l) /\
  (clock_nondecreasing cmds = true ->
   forall i j e1 e2, (i < j)%nat ->
     sent (run_host cmds (fresh s)) !! i = Some e1 ->
     sent (run_host cmds (fresh s)) !! j = Some e2 ->
     timeMs_of e1 <= timeMs_of e2 + 16) /\
  (clock_nondecreasing cmds = true ->
   forallb (fun nc => negb (is_keypress (snd nc))) cmds = true ->
   forall i j e1 e2, (i < j)%nat ->
     sent (run_host cmds (fresh s)) !! i = Some e1 ->
     sent (run_host cmds (fresh s)) !! j = Some e2 ->
     timeMs_of e1 <= timeMs_of e2).
Proof.
  split; [|split].
  - intros c1 c2 ->. rewrite run_host_app.
    destruct (run_host_appends c2 (run_host c1 (fresh s))) as (_ & l & Hl).
    eauto.
  - intros Hclk. apply run_host_timestamps_fresh; [done| |lia].
    apply List.Forall_forall. intros [n c] _. unfold cmd_delay. simpl.
    destruct (is_keypress c); lia.
  - intros Hclk Hno i j e1 e2 Hij H1 H2.
    assert (timeMs_of e1 <= timeMs_of e2 + 0) by
      (apply (run_host_timestamps_fresh 0 s cmds Hclk) with i j; auto;
       [apply List.Forall_forall; intros [n c] Hin;
        apply forallb_forall with (x := (n, c)) in Hno; [|done];
        unfold cmd_delay; simpl in *; destruct (is_keypress c); simpl in *; lia
       | lia]).
    lia.
Qed.

Lemma host_events_fifo_timestamps_witness :
  (exists l, sent (run_host [(100, CKeyPress [1]); (101, CKeyEvent 2 true)] (fresh 0))
             = sent (run_host [(100, CKeyPress [1])] (fresh 0)) ++ l) /\
  timeMs_of (AddKey 1 false 116) <= timeMs_of (AddKey 2 true 101) + 16 /\
  timeMs_of (AddKey 2 true 101) <= timeMs_of (MouseMove 0 0 105).
Proof.
  split; [|split].
  - apply (proj1 (host_events_fifo_timestamps 0 [(100, CKeyPress [1]); (101, CKeyEvent 2 true)])
             [(100, CKeyPress [1])] [(101, CKeyEvent 2 true)]). reflexivity.
  - apply (proj1 (proj2 (host_events_fifo_timestamps 0
             [(100, CKeyPress [1]); (101, CKeyEvent 2 true)])) eq_refl 1%nat 2%nat); reflexivity || lia.
  - apply (proj2 (proj2 (host_events_fifo_timestamps 0
             [(101, CKeyEvent 2 true); (105, CMouseMotion 0 0)])) eq_refl eq_refl 0%nat 1%nat);
      reflexivity || lia.
Defined.

End KeysProofs.

Module LifecycleProofs.
Import Lifecycle.

(** Unfolds the field updates of a world. *)
Ltac wsimpl :=
  unfold set_slot_persist, set_slot_exit, set_persistPromise, set_exitPromise,
    set_reactions, append_log, emit in *; simpl in *.

Ltac wproj :=
  cbn [store next_id persistPromise exitPromise slot_persist slot_exit err_sink
       startupErrorLog reactions trace].

Lemma world_eta (w : World) :
  mkWorld (store w) (next_id w) (persistPromise w) (exitPromise w) (slot_persist w)
          (slot_exit w) (err_sink w) (startupErrorLog w) (reactions w) (trace w) = w.
Proof. by destruct w. Qed.

(** Where an element of an extended list sits. *)
Lemma app_split_elem {A} (tr l l1 l2 : list A) (x : A) :
  tr ++ l = l1 ++ x :: l2 ->
  (exists l2', tr = l1 ++ x :: l2') \/ (exists k1 k2, l = k1 ++ x :: k2 /\ l1 = tr ++ k1).
Proof.
  revert tr. induction l1 as [|a l1 IH]; intros tr Heq.
  - destruct tr as [|b tr]; simpl in Heq.
    + right. exists [], l2. by rewrite Heq.
    + injection Heq as -> <-. left. by exists tr.
  - destruct tr as [|b tr]; simpl in Heq.
    + right. exists (a :: l1), l2. by rewrite Heq.
    + injection Heq as -> Heq. destruct (IH tr Heq) as [[l2' ->]|(k1 & k2 & -> & ->)].
      * left. by exists l2'.
      * right. by exists k1, k2.
Qed.

Lemma exit_after_cb_app tr l :
  exit_after_cb tr -> (~ In EvExit l \/ In CbExit tr) -> exit_after_cb (tr ++ l).
Proof.
  intros H Hl l1 l2 Heq. apply app_split_elem in Heq as [[l2' Htr]|(k1 & k2 & Hk & ->)].
  - eapply H. exact Htr.
  - destruct Hl as [Hl|Hl].
    + exfalso. apply Hl. rewrite Hk. apply in_or_app. simpl. auto.
    + apply in_or_app. auto.
Qed.

Lemma settled_after_exit_app h tr l :
  settled_after_exit h tr ->
  (forall l1 l2 v, l = l1 ++ Settled h (Fulfilled v) :: l2 -> In EvExit (tr ++ l1)) ->
  settled_after_exit h (tr ++ l).
Proof.
  intros H Hl l1 l2 v Heq. apply app_split_elem in Heq as [[l2' Htr]|(k1 & k2 & Hk & ->)].
  - eapply H. exact Htr.
  - eapply Hl. exact Hk.
Qed.

Lemma In_app_tail_elem {A} (l k1 k2 : list A) x : l = k1 ++ x :: k2 -> In x l.
Proof. intros ->. apply in_or_app. simpl. auto. Qed.

Lemma count_obs_app f tr l : count_obs f (tr ++ l) = (count_obs f tr + count_obs f l)%nat.
Proof.
  unfold count_obs. induction tr as [|o tr IH]; simpl; [done|].
  destruct (f o); simpl; lia.
Qed.

Lemma count_obs_none f l : Forall (fun o => f o = false) l -> count_obs f l = 0%nat.
Proof.
  induction 1 as [|o l Ho Hl IH]; [done|].
  unfold count_obs in *. simpl. rewrite Ho. done.
Qed.

Lemma settle_cases h st w :
  (store w !! h = Some Pending /\
   settle h st w = emit (Settled h st)
     (mkWorld (<[h := st]> (store w)) (next_id w) (persistPromise w) (exitPromise w)
              (slot_persist w) (slot_exit w) (err_sink w) (startupErrorLog w)
              (reactions w) (trace w))) \/
  (store w !! h <> Some Pending /\ settle h st w = w).
Proof.
  unfold settle. destruct (store w !! h) as [[| |]|] eqn:E; [left|right..]; split; done.
Qed.

Lemma sync_step_refl w : sync_step w w.
Proof.
  repeat split; auto. intros h. auto. exists []. rewrite app_nil_r. auto.
Qed.

Lemma obs_ok_weaken w w' o :
  slot_exit w' = slot_exit w ->
  (slot_persist w' = slot_persist w \/ slot_persist w' = None) ->
  obs_ok w' o -> obs_ok w o.
Proof.
  intros He Hp (H1 & H2 & H3 & H4). repeat split; auto.
  intros h st ->. destruct (H4 h st eq_refl) as [Hs|Hs].
  - left. destruct Hp as [Hp|Hp]; congruence.
  - right. congruence.
Qed.

Lemma sync_step_trans w1 w2 w3 : sync_step w1 w2 -> sync_step w2 w3 -> sync_step w1 w3.
Proof.
  intros (A1 & B1 & C1 & D1 & E1 & F1 & G1 & S1 & l1 & T1 & O1)
         (A2 & B2 & C2 & D2 & E2 & F2 & G2 & S2 & l2 & T2 & O2).
  split; [congruence|]. split; [congruence|]. split; [congruence|].
  split; [congruence|]. split; [congruence|]. split; [congruence|].
  split; [destruct G1, G2; [left|right..]; congruence|].
  split.
  - intros h. destruct (S1 h) as [H1|(P1 & [(Q1 & a & R1)|(Q1 & R1 & U1)])];
    destruct (S2 h) as [H2|(P2 & [(Q2 & b & R2)|(Q2 & R2 & U2)])].
    + left. congruence.
    + destruct G1 as [G1|G1]; [|congruence].
      right. split; [congruence|]. left. split; [congruence|]. eauto.
    + right. split; [congruence|]. right. split; [congruence|]. auto.
    + right. split; [done|]. left. split; [done|]. exists a. congruence.
    + congruence.
    + congruence.
    + right. split; [done|]. right. split; [done|]. split; [congruence|].
      rewrite T2. apply in_or_app. auto.
    + congruence.
    + congruence.
  - exists (l1 ++ l2). split; [by rewrite T2, T1, app_assoc|].
    apply Forall_app. split; [done|].
    eapply Forall_impl; [exact O2|]. intros o. apply obs_ok_weaken; congruence.
Qed.

Lemma obs_ok_settled w h st :
  slot_persist w = Some h \/ slot_exit w = Some h -> obs_ok w (Settled h st).
Proof. intros H. repeat split; try discriminate. intros h' st' [= -> ->]. done. Qed.

Lemma obs_ok_simple w o :
  o <> EvExit -> is_req_pack o = false -> is_req_exit o = false ->
  (forall h st, o <> Settled h st) -> obs_ok w o.
Proof. intros H1 H2 H3 H4. repeat split; auto. intros h st Ho. by destruct (H4 h st). Qed.

Ltac obs_tac :=
  repeat (apply List.Forall_cons;
          [first [apply obs_ok_settled; auto
                 | apply obs_ok_simple; [discriminate | done | done | intros ? ? [=]]] |]);
  apply List.Forall_nil.

Lemma mod_act_sync a w : sync_step w (fst (mod_act a w)).
Proof.
  destruct a as [archive| |args|args|args|e]; simpl.
  - destruct (slot_persist w) as [h|] eqn:Hs; simpl; [|apply sync_step_refl].
    destruct (settle_cases h (Fulfilled (VArchive archive)) (emit CbPersist w))
      as [(Hp & ->)|(Hp & ->)]; wsimpl.
    + repeat split; simpl; auto.
      * intros h'; simpl. destruct (decide (h' = h)) as [->|Hne].
        -- right. split; [done|]. left. split; [done|]. exists archive.
           by rewrite lookup_insert_eq.
        -- left. by rewrite lookup_insert_ne by congruence.
      * exists [CbPersist; Settled h (Fulfilled (VArchive archive))].
        split; [by rewrite <- app_assoc|]. obs_tac.
    + repeat split; simpl; auto.
      * intros h'. auto.
      * exists [CbPersist]. split; [done|].
        obs_tac.
  - destruct (slot_exit w) as [h|] eqn:Hs; simpl; [|apply sync_step_refl].
    destruct (settle_cases h (Fulfilled VUndefined) (emit CbExit w))
      as [(Hp & ->)|(Hp & ->)]; wsimpl.
    + repeat split; simpl; auto.
      * intros h'; simpl. destruct (decide (h' = h)) as [->|Hne].
        -- right. split; [done|]. right. split; [done|].
           split; [by rewrite lookup_insert_eq|].
           apply in_or_app. left. apply in_or_app. simpl. auto.
        -- left. by rewrite lookup_insert_ne by congruence.
      * exists [CbExit; Settled h (Fulfilled VUndefined)].
        split; [by rewrite <- app_assoc|]. obs_tac.
    + repeat split; simpl; auto.
      * intros h'. auto.
      * exists [CbExit]. split; [done|].
        obs_tac.
  - repeat split; simpl; auto. intros h; auto. eexists; split; [reflexivity|]. obs_tac.
  - repeat split; simpl; auto. intros h; auto. eexists; split; [reflexivity|]. obs_tac.
  - unfold call_err. destruct (err_sink w); wsimpl.
    + repeat split; simpl; auto. intros h; auto. eexists; split; [reflexivity|]. obs_tac.
    + repeat split; simpl; auto. intros h; auto. eexists; split; [reflexivity|]. obs_tac.
  - apply sync_step_refl.
Qed.

Lemma run_sync_sync acts : forall w, sync_step w (fst (run_sync acts w)).
Proof.
  induction acts as [|a acts IH]; intros w; simpl; [apply sync_step_refl|].
  pose proof (mod_act_sync a w) as H.
  destruct (mod_act a w) as [w1 [e|]]; simpl in *; auto.
  eapply sync_step_trans; [exact H|]. apply IH.
Qed.

Lemma obs_ok_no_EvExit w l : Forall (obs_ok w) l -> ~ In EvExit l.
Proof.
  intros O Hin. eapply List.Forall_forall in O; [|exact Hin]. destruct O as [O _]. done.
Qed.

Lemma obs_ok_settled_slot w l h st :
  Forall (obs_ok w) l -> In (Settled h st) l ->
  slot_persist w = Some h \/ slot_exit w = Some h.
Proof.
  intros O Hin. eapply List.Forall_forall in O; [|exact Hin].
  destruct O as (_ & _ & _ & O). eauto.
Qed.

Lemma obs_ok_counts w l :
  Forall (obs_ok w) l -> count_obs is_req_pack l = 0%nat /\ count_obs is_req_exit l = 0%nat.
Proof.
  intros O. split; apply count_obs_none; eapply Forall_impl; try exact O;
    intros o (_ & ? & ? & _); done.
Qed.

Lemma Inv_slot_persist w h : Inv w -> slot_persist w = Some h -> persistPromise w = Some h.
Proof.
  intros [_ _ Hp _ _ _ _] Hs. destruct (persistPromise w); [|congruence].
  destruct Hp as [_ [Hn|Hn]]; congruence.
Qed.

Lemma Inv_slot_bound w h :
  Inv w -> slot_persist w = Some h \/ slot_exit w = Some h -> (h < next_id w)%nat.
Proof.
  intros [_ _ Hp He _ _ _] [Hs|Hs].
  - destruct (persistPromise w); [|congruence]. destruct Hp as [Hlt [Hn|Hn]]; congruence.
  - destruct (exitPromise w) as [h1|]; [|destruct He; congruence].
    destruct He as (h0 & Hs0 & _ & Hlt & _). congruence.
Qed.

Lemma Inv_sync w w' : Inv w -> sync_step w w' -> Inv w'.
Proof.
  intros HI (A & B & C & D & E & F & G & S & l & T & O).
  pose proof HI as [Hf Hsf Hp He Hcb Hcp Hce].
  assert (Hsp : forall h, slot_persist w = Some h -> persistPromise w = Some h)
    by (intros h; by apply Inv_slot_persist).
  constructor.
  - intros h Hh. rewrite A in Hh.
    destruct (S h) as [H|(H & _)]; [rewrite H; by apply Hf|].
    rewrite Hf in H; [discriminate|done].
  - intros h st Hin. rewrite T in Hin. rewrite A. apply in_app_or in Hin as [Hin|Hin].
    + eauto.
    + eapply Inv_slot_bound; [exact HI|]. eapply obs_ok_settled_slot; eauto.
  - rewrite B. destruct (persistPromise w) as [hp|] eqn:Epp.
    + destruct Hp as [Hlt Hs]. rewrite A. split; [done|].
      destruct G as [G|G]; rewrite G; auto.
    + destruct G as [G|G]; rewrite G; auto.
  - rewrite C, D, E. destruct (exitPromise w) as [h1|] eqn:Eep.
    + destruct He as (h0 & Hs0 & Hne & Hl0 & Hl1 & Hp0 & Hp1 & R & Fc & X & SA).
      assert (Hh1 : store w' !! h1 = store w !! h1).
      { destruct (S h1) as [H|(_ & [(Hs & _)|(Hs & _)])]; [done| |congruence].
        apply Hsp in Hs. congruence. }
      exists h0. rewrite A, B. do 6 (split; [done|]).
      split; [rewrite Hh1; done|].
      split; [|split].
      * intros Hful. destruct (S h0) as [H|(_ & [(Hs & _)|(_ & _ & Hin)])].
        -- rewrite H in Hful. rewrite T. apply in_or_app. auto.
        -- apply Hsp in Hs. congruence.
        -- done.
      * intros Hin. rewrite T in Hin. apply in_app_or in Hin as [Hin|Hin].
        -- specialize (X Hin). destruct (S h0) as [H|(H & _)]; [by rewrite H|].
           by rewrite H in X.
        -- by apply obs_ok_no_EvExit in O.
      * rewrite T. apply settled_after_exit_app; [done|].
        intros k1 k2 v Hk. apply In_app_tail_elem in Hk.
        destruct (obs_ok_settled_slot w l h1 _ O Hk) as [Hs|Hs].
        -- apply Hsp in Hs. congruence.
        -- congruence.
    + destruct He as (Hs & Hr & Hev). split; [done|]. split; [done|].
      rewrite T. intros Hin. apply in_app_or in Hin as [Hin|Hin]; [done|].
      by apply obs_ok_no_EvExit in O.
  - rewrite T. apply exit_after_cb_app; [done|]. left. by apply obs_ok_no_EvExit in O.
  - rewrite T, count_obs_app, B, Hcp. destruct (obs_ok_counts w l O) as [-> _]. lia.
  - rewrite T, count_obs_app, C, Hce. destruct (obs_ok_counts w l O) as [_ ->]. lia.
Qed.

Lemma Inv_run_sync acts w : Inv w -> Inv (fst (run_sync acts w)).
Proof. intros HI. eapply Inv_sync; [exact HI|]. apply run_sync_sync. Qed.

Lemma Inv_init : Inv init_world.
Proof.
  constructor; simpl; try done; try tauto; intros l1 l2 Heq; by destruct l1.
Qed.

Lemma settle_fields h st w :
  next_id (settle h st w) = next_id w /\ persistPromise (settle h st w) = persistPromise w /\
  exitPromise (settle h st w) = exitPromise w /\ slot_persist (settle h st w) = slot_persist w /\
  slot_exit (settle h st w) = slot_exit w /\ err_sink (settle h st w) = err_sink w /\
  startupErrorLog (settle h st w) = startupErrorLog w /\
  reactions (settle h st w) = reactions w.
Proof. destruct (settle_cases h st w) as [(_ & ->)|(_ & ->)]; wsimpl; auto 10. Qed.

Lemma settle_store_ne h st w h' : h' <> h -> store (settle h st w) !! h' = store w !! h'.
Proof.
  intros Hne. destruct (settle_cases h st w) as [(_ & ->)|(_ & ->)]; wsimpl; [|done].
  by rewrite lookup_insert_ne by congruence.
Qed.

Lemma settle_store_eq h st w :
  store (settle h st w) !! h = if decide (store w !! h = Some Pending) then Some st else store w !! h.
Proof.
  destruct (settle_cases h st w) as [(Hp & ->)|(Hp & ->)]; wsimpl.
  - rewrite lookup_insert_eq. by rewrite decide_True.
  - by rewrite decide_False.
Qed.

Lemma settle_trace h st w :
  trace (settle h st w) = trace w \/ trace (settle h st w) = trace w ++ [Settled h st].
Proof. destruct (settle_cases h st w) as [(_ & ->)|(_ & ->)]; wsimpl; auto. Qed.

Lemma settle_stable h st w h' st' :
  store w !! h' = Some st' -> st' <> Pending -> store (settle h st w) !! h' = Some st'.
Proof.
  intros H Hp. destruct (decide (h' = h)) as [->|Hne].
  - rewrite settle_store_eq, decide_False; [done|]. rewrite H. congruence.
  - by rewrite settle_store_ne.
Qed.

Lemma settle_thrown_cases h thrown w :
  settle_thrown h thrown w = w \/ exists e, settle_thrown h thrown w = settle h (Rejected e) w.
Proof. destruct thrown; simpl; eauto. Qed.

Lemma settle_thrown_fields h thrown w :
  next_id (settle_thrown h thrown w) = next_id w /\
  persistPromise (settle_thrown h thrown w) = persistPromise w /\
  exitPromise (settle_thrown h thrown w) = exitPromise w /\
  slot_persist (settle_thrown h thrown w) = slot_persist w /\
  slot_exit (settle_thrown h thrown w) = slot_exit w /\
  err_sink (settle_thrown h thrown w) = err_sink w /\
  startupErrorLog (settle_thrown h thrown w) = startupErrorLog w /\
  reactions (settle_thrown h thrown w) = reactions w.
Proof. destruct thrown; simpl; [apply settle_fields|auto 10]. Qed.

Lemma settle_thrown_store_ne h thrown w h' :
  h' <> h -> store (settle_thrown h thrown w) !! h' = store w !! h'.
Proof. destruct thrown; simpl; [apply settle_store_ne|done]. Qed.

Lemma settle_thrown_trace h thrown w :
  exists k, trace (settle_thrown h thrown w) = trace w ++ k /\
            forall o, In o k -> exists e, o = Settled h (Rejected e).
Proof.
  destruct thrown as [e|]; simpl.
  - destruct (settle_trace h (Rejected e) w) as [-> | ->].
    + exists []. rewrite app_nil_r. split; [done|]. intros o [].
    + exists [Settled h (Rejected e)]. split; [done|]. intros o [<-|[]]. eauto.
  - exists []. rewrite app_nil_r. split; [done|]. intros o [].
Qed.

Lemma persist_unfold mb w :
  persist mb w =
  match persistPromise w with
  | Some h => (w, h)
  | None =>
      let h := next_id w in
      let w2 := emit ReqPackFsToBundle (set_slot_persist (Some h) (snd (alloc w))) in
      (set_persistPromise h (settle_thrown h (snd (run_sync (on_packFsToBundle mb) w2))
                                             (fst (run_sync (on_packFsToBundle mb) w2))), h)
  end.
Proof.
  unfold persist. destruct (persistPromise w); [done|]. simpl.
  by destruct (run_sync _ _) as [w3 thrown].
Qed.

Lemma Inv_persist mb w : Inv w -> Inv (fst (persist mb w)).
Proof.
  intros HI. rewrite persist_unfold.
  destruct (persistPromise w) as [hp|] eqn:Epp; [done|]. cbn [fst].
  pose proof HI as [Hf Hsf Hp He Hcb Hcp Hce]. rewrite Epp in Hp, Hcp.
  set (n := next_id w).
  set (w2 := emit ReqPackFsToBundle (set_slot_persist (Some n) (snd (alloc w)))).
  assert (W2 : next_id w2 = S n /\ persistPromise w2 = None /\ exitPromise w2 = exitPromise w /\
               slot_persist w2 = Some n /\ slot_exit w2 = slot_exit w /\
               reactions w2 = reactions w /\ store w2 = <[n := Pending]> (store w) /\
               trace w2 = trace w ++ [ReqPackFsToBundle])
    by (subst w2; wsimpl; auto 10).
  destruct W2 as (N2 & P2 & X2 & SP2 & SX2 & R2 & ST2 & T2).
  pose proof (run_sync_sync (on_packFsToBundle mb) w2) as (A & B & C & D & E & F & G & S & l & T & O).
  set (w3 := fst (run_sync (on_packFsToBundle mb) w2)) in *.
  set (th := snd (run_sync (on_packFsToBundle mb) w2)).
  destruct (settle_thrown_fields n th w3) as (A' & B' & C' & D' & E' & F' & G' & H').
  destruct (settle_thrown_trace n th w3) as (k & Tk & Hk).
  set (w4 := settle_thrown n th w3) in *.
  assert (Hst : forall h, h <> n ->
            store w4 !! h = store w !! h \/
            (store w !! h = Some Pending /\ slot_exit w = Some h /\
             store w4 !! h = Some (Fulfilled VUndefined) /\ In CbExit (trace w4))).
  { intros h Hne. subst w4. rewrite settle_thrown_store_ne by done.
    destruct (S h) as [H|(H1 & [(H2 & _)|(H2 & H3 & H4)])].
    - left. rewrite H, ST2. by rewrite lookup_insert_ne by congruence.
    - congruence.
    - right. rewrite ST2 in H1. rewrite lookup_insert_ne in H1 by congruence.
      repeat split; try congruence. rewrite Tk. apply in_or_app. auto. }
  assert (Htr : trace w4 = trace w ++ ([ReqPackFsToBundle] ++ l ++ k))
    by (rewrite Tk, T, T2, !app_assoc; done).
  assert (Hnew : forall o, In o ([ReqPackFsToBundle] ++ l ++ k) ->
            o = ReqPackFsToBundle \/ obs_ok w2 o \/ exists e, o = Settled n (Rejected e)).
  { intros o Hin. apply in_app_or in Hin as [[<-|[]]|Hin]; [auto|].
    apply in_app_or in Hin as [Hin|Hin].
    - right. left. eapply List.Forall_forall; eauto.
    - right. right. eauto. }
  assert (NoEv : ~ In EvExit ([ReqPackFsToBundle] ++ l ++ k)).
  { intros Hin. destruct (Hnew _ Hin) as [[=]|[(Hx & _)|(e & [=])]]. done. }
  assert (Hsettled : forall h st, In (Settled h st) ([ReqPackFsToBundle] ++ l ++ k) ->
            h = n \/ slot_exit w = Some h).
  { intros h st Hin. destruct (Hnew _ Hin) as [[=]|[(_ & _ & _ & Hx)|(e & [= -> _])]]; auto.
    destruct (Hx h st eq_refl) as [Hs|Hs]; [left; congruence|right; congruence]. }
  assert (Hcnt : count_obs is_req_pack ([ReqPackFsToBundle] ++ l ++ k) = 1%nat /\
                 count_obs is_req_exit ([ReqPackFsToBundle] ++ l ++ k) = 0%nat).
  { rewrite !count_obs_app. destruct (obs_ok_counts w2 l O) as [-> ->].
    assert (Hk0 : forall f, (forall e, f (Settled n (Rejected e)) = false) -> count_obs f k = 0%nat).
    { intros f Hf0. apply count_obs_none. apply List.Forall_forall. intros o Ho.
      destruct (Hk o Ho) as [e ->]. apply Hf0. }
    rewrite !Hk0 by done. done. }
  unfold set_persistPromise; constructor; wproj; rewrite ?A', ?A, ?N2.
  - intros h Hh. destruct (Hst h) as [H|(H & _)]; [lia| |].
    + rewrite H. apply Hf. lia.
    + rewrite Hf in H; [discriminate|lia].
  - intros h st Hin. rewrite Htr in Hin. apply in_app_or in Hin as [Hin|Hin].
    + specialize (Hsf h st Hin). lia.
    + destruct (Hsettled h st Hin) as [->|Hs]; [lia|].
      enough (h < n)%nat by lia. eapply Inv_slot_bound; eauto.
  - split; [lia|]. rewrite D'. destruct G as [G|G]; rewrite G; auto.
  - rewrite C', C, X2. destruct (exitPromise w) as [h1|] eqn:Eep.
    + destruct He as (h0 & Hs0 & Hne & Hl0 & Hl1 & Hp0 & Hp1 & R & Fc & X & SA).
      exists h0. rewrite E', D, SX2. split; [done|]. split; [done|].
      split; [lia|]. split; [lia|]. split; [intros [= Heq]; unfold n in *; lia|]. split; [intros [= Heq]; unfold n in *; lia|].
      assert (Hh1 : store w4 !! h1 = store w !! h1).
      { destruct (Hst h1) as [H|(_ & Hs & _)]; [lia|done|congruence]. }
      assert (Hh0 : h0 <> n) by lia.
      split; [rewrite H', E, R2, Hh1; done|].
      split; [|split].
      * intros Hful. destruct (Hst h0 Hh0) as [H|(_ & _ & _ & Hin)]; [|done].
        rewrite H in Hful. rewrite Htr. apply in_or_app. auto.
      * intros Hin. rewrite Htr in Hin. apply in_app_or in Hin as [Hin|Hin]; [|done].
        specialize (X Hin). destruct (Hst h0 Hh0) as [H|(H & _)]; [by rewrite H|].
        by rewrite H in X.
      * rewrite Htr. apply settled_after_exit_app; [done|].
        intros k1 k2 v Hk1. apply In_app_tail_elem in Hk1.
        destruct (Hsettled _ _ Hk1) as [->|Hs]; [lia|congruence].
    + destruct He as (Hs & Hr & Hev). rewrite E', D, SX2, H', E, R2.
      split; [done|]. split; [done|]. rewrite Htr. intros Hin.
      apply in_app_or in Hin as [Hin|Hin]; done.
  - rewrite Htr. apply exit_after_cb_app; auto.
  - rewrite Htr, count_obs_app, Hcp. destruct Hcnt as [-> _]. done.
  - rewrite Htr, count_obs_app, Hce, C', C, X2. destruct Hcnt as [_ ->]. lia.
Qed.

Lemma exit_unfold mb w :
  exit mb w =
  match exitPromise w with
  | Some h => (w, h)
  | None =>
      let h0 := next_id w in
      let w2 := emit ReqRequestExit (set_slot_exit (Some h0) (snd (alloc w))) in
      let w4 := settle_thrown h0 (snd (run_sync (on_requestExit mb) w2))
                              (fst (run_sync (on_requestExit mb) w2)) in
      let w5 := snd (alloc w4) in
      (set_exitPromise (next_id w4)
         (set_reactions (reactions w5 ++ [ThenFireExit h0 (next_id w4)]) w5), next_id w4)
  end.
Proof.
  unfold exit. destruct (exitPromise w); [done|]. simpl.
  by destruct (run_sync _ _) as [w3 thrown].
Qed.

Lemma settle_thrown_store_eq h thrown w :
  store (settle_thrown h thrown w) !! h = store w !! h \/
  (store w !! h = Some Pending /\ exists e, store (settle_thrown h thrown w) !! h = Some (Rejected e)).
Proof.
  destruct thrown as [e|]; simpl; [|auto].
  rewrite settle_store_eq. case_decide; [right; eauto|auto].
Qed.

Lemma not_settled_after_exit h tr :
  (forall st, ~ In (Settled h st) tr) -> settled_after_exit h tr.
Proof. intros H l1 l2 v ->. exfalso. apply (H (Fulfilled v)). apply in_or_app. simpl. auto. Qed.

Lemma Inv_exit mb w : Inv w -> Inv (fst (exit mb w)).
Proof.
  intros HI. rewrite exit_unfold.
  destruct (exitPromise w) as [he|] eqn:Eep; [done|]. cbn [fst].
  pose proof HI as [Hf Hsf Hp He Hcb Hcp Hce]. rewrite Eep in He, Hce.
  destruct He as (HsX & HR & HnoEv).
  set (n := next_id w).
  set (w2 := emit ReqRequestExit (set_slot_exit (Some n) (snd (alloc w)))).
  assert (W2 : next_id w2 = S n /\ persistPromise w2 = persistPromise w /\ exitPromise w2 = None /\
               slot_persist w2 = slot_persist w /\ slot_exit w2 = Some n /\
               reactions w2 = [] /\ store w2 = <[n := Pending]> (store w) /\
               trace w2 = trace w ++ [ReqRequestExit])
    by (subst w2; wsimpl; rewrite HR; auto 10).
  destruct W2 as (N2 & P2 & X2 & SP2 & SX2 & R2 & ST2 & T2).
  assert (Hpn : forall hp, persistPromise w = Some hp -> (hp < n)%nat).
  { intros hp Ehp. rewrite Ehp in Hp. unfold n. tauto. }
  assert (Hspn : forall h, slot_persist w = Some h -> (h < n)%nat).
  { intros h Hs. apply Hpn. eapply Inv_slot_persist; eauto. }
  pose proof (run_sync_sync (on_requestExit mb) w2) as (A & B & C & D & E & F & G & S & l & T & O).
  set (w3 := fst (run_sync (on_requestExit mb) w2)) in *.
  set (th := snd (run_sync (on_requestExit mb) w2)).
  destruct (settle_thrown_fields n th w3) as (A' & B' & C' & D' & E' & F' & G' & H').
  destruct (settle_thrown_trace n th w3) as (k & Tk & Hk).
  set (w4 := settle_thrown n th w3) in *.
  assert (Hst : forall h, (n < h)%nat -> store w4 !! h = store w !! h).
  { intros h Hlt. subst w4. rewrite settle_thrown_store_ne by lia.
    destruct (S h) as [H|(H1 & [(H2 & _)|(H2 & _)])].
    - rewrite H, ST2. by rewrite lookup_insert_ne by lia.
    - rewrite SP2 in H2. apply Hspn in H2. lia.
    - rewrite SX2 in H2. injection H2 as ->. lia. }
  assert (Hn : is_fulfilled (store w4 !! n) -> In CbExit (trace w4)).
  { subst w4. destruct (settle_thrown_store_eq n th w3) as [H|(_ & e & H)]; rewrite H; [|done].
    destruct (S n) as [H0|(_ & [(H2 & _)|(_ & _ & Hin)])].
    - rewrite H0, ST2, lookup_insert_eq. done.
    - rewrite SP2 in H2. apply Hspn in H2. lia.
    - intros _. rewrite Tk. apply in_or_app. auto. }
  assert (Htr : trace w4 = trace w ++ ([ReqRequestExit] ++ l ++ k))
    by (rewrite Tk, T, T2, !app_assoc; done).
  assert (Hnew : forall o, In o ([ReqRequestExit] ++ l ++ k) ->
            o = ReqRequestExit \/ obs_ok w2 o \/ exists e, o = Settled n (Rejected e)).
  { intros o Hin. apply in_app_or in Hin as [[<-|[]]|Hin]; [auto|].
    apply in_app_or in Hin as [Hin|Hin].
    - right. left. eapply List.Forall_forall; eauto.
    - right. right. eauto. }
  assert (NoEv : ~ In EvExit ([ReqRequestExit] ++ l ++ k)).
  { intros Hin. destruct (Hnew _ Hin) as [[=]|[(Hx & _)|(e & [=])]]. done. }
  assert (Hsettled : forall h st, In (Settled h st) ([ReqRequestExit] ++ l ++ k) ->
            (h <= n)%nat).
  { intros h st Hin. destruct (Hnew _ Hin) as [[=]|[(_ & _ & _ & Hx)|(e & [= -> _])]]; [|lia].
    destruct (Hx h st eq_refl) as [Hs|Hs].
    - rewrite SP2 in Hs. apply Hspn in Hs. lia.
    - rewrite SX2 in Hs. injection Hs as ->. lia. }
  assert (Hcnt : count_obs is_req_pack ([ReqRequestExit] ++ l ++ k) = 0%nat /\
                 count_obs is_req_exit ([ReqRequestExit] ++ l ++ k) = 1%nat).
  { rewrite !count_obs_app. destruct (obs_ok_counts w2 l O) as [-> ->].
    assert (Hk0 : forall f, (forall e, f (Settled n (Rejected e)) = false) -> count_obs f k = 0%nat).
    { intros f Hf0. apply count_obs_none. apply List.Forall_forall. intros o Ho.
      destruct (Hk o Ho) as [e ->]. apply Hf0. }
    rewrite !Hk0 by done. done. }
  assert (Hid4 : next_id w4 = Datatypes.S n) by (rewrite A', A, N2; done).
  unfold set_exitPromise, set_reactions, alloc; constructor; cbn [snd]; wproj; rewrite ?Hid4.
  - intros h Hh. rewrite lookup_insert_ne by lia. rewrite Hst by lia. apply Hf. unfold n in *. lia.
  - intros h st Hin. rewrite Htr in Hin. apply in_app_or in Hin as [Hin|Hin].
    + specialize (Hsf h st Hin). unfold n in *. lia.
    + apply Hsettled in Hin. lia.
  - rewrite B', B, P2, D'. destruct (persistPromise w) as [hp|] eqn:Epp.
    + destruct Hp as [Hlt Hs]. split; [lia|]. destruct G as [G|G]; rewrite G, ?SP2; auto.
    + destruct G as [G|G]; rewrite G, ?SP2; auto.
  - exists n. rewrite E', D, SX2, B', B, P2, H', E, R2.
    split; [done|]. split; [lia|]. split; [lia|]. split; [lia|].
    split; [intros Ep; apply Hpn in Ep; lia|]. split; [intros Ep; apply Hpn in Ep; lia|].
    split; [right; split; [done|apply lookup_insert_eq]|].
    rewrite lookup_insert_ne by lia.
    split; [exact Hn|]. split.
    + rewrite Htr. intros Hin. apply in_app_or in Hin as [Hin|Hin]; done.
    + apply not_settled_after_exit. intros st Hin. rewrite Htr in Hin.
      apply in_app_or in Hin as [Hin|Hin].
      * specialize (Hsf _ _ Hin). unfold n in *. lia.
      * apply Hsettled in Hin. lia.
  - rewrite Htr. apply exit_after_cb_app; auto.
  - rewrite Htr, count_obs_app, Hcp, B', B, P2. destruct Hcnt as [-> _].
    destruct (persistPromise w); done.
  - rewrite Htr, count_obs_app, Hce. destruct Hcnt as [_ ->]. done.
Qed.

Lemma settle_pending h st w :
  store w !! h = Some Pending ->
  settle h st w =
    mkWorld (<[h := st]> (store w)) (next_id w) (persistPromise w) (exitPromise w)
            (slot_persist w) (slot_exit w) (err_sink w) (startupErrorLog w)
            (reactions w) (trace w ++ [Settled h st]).
Proof. intros H. unfold settle. by rewrite H. Qed.

Lemma drain_nil w : reactions w = [] -> drain w = w.
Proof.
  intros H. unfold drain. rewrite H. simpl. unfold set_reactions. rewrite <- H. apply world_eta.
Qed.

Lemma drain_one w r :
  reactions w = [r] ->
  drain w = match run_reaction r (set_reactions [] w) with Some w' => w' | None => w end.
Proof.
  intros H. unfold drain. rewrite H. simpl.
  destruct (run_reaction r _); [done|]. unfold set_reactions; simpl. rewrite <- H. apply world_eta.
Qed.

Lemma Inv_drain w : Inv w -> Inv (drain w).
Proof.
  intros HI. pose proof HI as [Hf Hsf Hp He Hcb Hcp Hce].
  destruct (exitPromise w) as [h1|] eqn:Eep.
  2:{ destruct He as (_ & HR & _). by rewrite drain_nil. }
  destruct He as (h0 & Hs0 & Hne & Hl0 & Hl1 & Hp0 & Hp1 & [HR|(HR & Hpend)] & Fc & X & SA).
  { by rewrite drain_nil. }
  rewrite (drain_one w _ HR). simpl.
  destruct (store w !! h0) as [[|v|e]|] eqn:E0; try done.
  - rewrite settle_pending by (wsimpl; done). wsimpl. rewrite <- app_assoc.
    constructor; simpl; rewrite ?Eep.
    + intros h Hh. rewrite lookup_insert_ne by lia. auto.
    + intros h st Hin. apply in_app_or in Hin as [Hin|Hin]; [eauto|].
      destruct Hin as [[=]|[[= -> _]|[]]]; lia.
    + done.
    + exists h0. do 6 (split; [done|]). split; [by left|].
      rewrite lookup_insert_ne by done. rewrite E0.
      split; [intros _; apply in_or_app; left; by apply Fc|].
      split; [done|].
      apply settled_after_exit_app; [done|].
      intros k1 k2 v' Hk. destruct k1 as [|a [|b k1]]; simpl in Hk; try discriminate.
      * injection Hk as -> _. apply in_or_app. right. simpl. auto.
      * injection Hk as _ _ Hk. by destruct k1.
    + apply exit_after_cb_app; [done|]. right. by apply Fc.
    + rewrite count_obs_app, Hcp. unfold count_obs; simpl; lia.
    + rewrite count_obs_app, Hce. unfold count_obs; simpl; lia.
  - rewrite settle_pending by (wsimpl; done). wsimpl.
    constructor; simpl; rewrite ?Eep.
    + intros h Hh. rewrite lookup_insert_ne by lia. auto.
    + intros h st Hin. apply in_app_or in Hin as [Hin|Hin]; [eauto|].
      destruct Hin as [[= -> _]|[]]; lia.
    + done.
    + exists h0. do 6 (split; [done|]). split; [by left|].
      rewrite lookup_insert_ne by done. rewrite E0.
      split; [done|]. split.
      * intros Hin. apply in_app_or in Hin as [Hin|[[=]|[]]].
        specialize (X Hin). done.
      * apply settled_after_exit_app; [done|].
        intros k1 k2 v' Hk. destruct k1 as [|a k1]; simpl in Hk; [discriminate|].
        injection Hk as _ Hk. by destruct k1.
    + apply exit_after_cb_app; [done|]. left. intros [[=]|[]].
    + rewrite count_obs_app, Hcp. unfold count_obs; simpl; lia.
    + rewrite count_obs_app, Hce. unfold count_obs; simpl; lia.
Qed.

Lemma Inv_step mb t w : Inv w -> Inv (step mb t w).
Proof.
  intros HI. unfold step. apply Inv_drain.
  destruct t; [by apply Inv_persist|by apply Inv_exit|by apply Inv_run_sync].
Qed.

Lemma Inv_run mb ts : forall w, Inv w -> Inv (run mb ts w).
Proof. induction ts as [|t ts IH]; intros w HI; simpl; auto using Inv_step. Qed.

(** ** Which fields a task leaves alone *)

Lemma run_reaction_fields r w w' :
  run_reaction r w = Some w' ->
  next_id w' = next_id w /\ persistPromise w' = persistPromise w /\
  exitPromise w' = exitPromise w /\ slot_persist w' = slot_persist w /\
  slot_exit w' = slot_exit w /\ err_sink w' = err_sink w /\
  startupErrorLog w' = startupErrorLog w.
Proof.
  destruct r as [src dst]; simpl.
  destruct (store w !! src) as [[|v|e]|]; intros [= <-].
  - destruct (settle_fields dst (Fulfilled VUndefined) (emit EvExit w)) as (? & ? & ? & ? & ? & ? & ? & _).
    wsimpl. repeat split; congruence.
  - destruct (settle_fields dst (Rejected e) w) as (? & ? & ? & ? & ? & ? & ? & _).
    repeat split; congruence.
Qed.

Lemma drain_list_fields rs : forall w,
  next_id (drain_list rs w) = next_id w /\ persistPromise (drain_list rs w) = persistPromise w /\
  exitPromise (drain_list rs w) = exitPromise w /\
  slot_persist (drain_list rs w) = slot_persist w /\
  slot_exit (drain_list rs w) = slot_exit w /\ err_sink (drain_list rs w) = err_sink w /\
  startupErrorLog (drain_list rs w) = startupErrorLog w.
Proof.
  induction rs as [|r rs IH]; intros w; simpl; [auto 10|].
  destruct (run_reaction r w) as [w'|] eqn:Er.
  - destruct (run_reaction_fields r w w' Er) as (? & ? & ? & ? & ? & ? & ?).
    destruct (IH w') as (? & ? & ? & ? & ? & ? & ?). repeat split; congruence.
  - destruct (IH (set_reactions (reactions w ++ [r]) w)) as (? & ? & ? & ? & ? & ? & ?).
    wsimpl. repeat split; congruence.
Qed.

Lemma drain_fields w :
  next_id (drain w) = next_id w /\ persistPromise (drain w) = persistPromise w /\
  exitPromise (drain w) = exitPromise w /\ slot_persist (drain w) = slot_persist w /\
  slot_exit (drain w) = slot_exit w /\ err_sink (drain w) = err_sink w /\
  startupErrorLog (drain w) = startupErrorLog w.
Proof. unfold drain. exact (drain_list_fields (reactions w) (set_reactions [] w)). Qed.

Lemma persist_fields mb w :
  exitPromise (fst (persist mb w)) = exitPromise w /\
  slot_exit (fst (persist mb w)) = slot_exit w /\
  err_sink (fst (persist mb w)) = err_sink w /\
  (forall h, persistPromise w = Some h -> persist mb w = (w, h)).
Proof.
  rewrite persist_unfold. destruct (persistPromise w) as [h|]; [split; [done|]; split; [done|]; split; [done|]; congruence|].
  cbn [fst]. set (w2 := emit _ _).
  pose proof (run_sync_sync (on_packFsToBundle mb) w2) as (A & B & C & D & E & F & _).
  destruct (settle_thrown_fields (next_id w) (snd (run_sync (on_packFsToBundle mb) w2))
              (fst (run_sync (on_packFsToBundle mb) w2))) as (_ & _ & C' & _ & E' & F' & _).
  unfold set_persistPromise; wproj. rewrite C', E', F', C, D, F. subst w2; wsimpl.
  repeat split; done.
Qed.

Lemma exit_fields mb w :
  persistPromise (fst (exit mb w)) = persistPromise w /\
  err_sink (fst (exit mb w)) = err_sink w /\
  (forall h, exitPromise w = Some h -> exit mb w = (w, h)).
Proof.
  rewrite exit_unfold. destruct (exitPromise w) as [h|]; [split; [done|]; split; [done|]; congruence|].
  cbn [fst]. set (w2 := emit _ _).
  pose proof (run_sync_sync (on_requestExit mb) w2) as (A & B & C & D & E & F & _).
  destruct (settle_thrown_fields (next_id w) (snd (run_sync (on_requestExit mb) w2))
              (fst (run_sync (on_requestExit mb) w2))) as (_ & B' & _ & _ & _ & F' & _).
  unfold set_exitPromise, set_reactions, alloc; cbn [snd]; wproj. rewrite B', F', B, F.
  subst w2; wsimpl. repeat split; done.
Qed.

Lemma step_frame mb t w :
  (forall hp, persistPromise w = Some hp -> persistPromise (step mb t w) = Some hp) /\
  (forall h1, exitPromise w = Some h1 ->
     exitPromise (step mb t w) = Some h1 /\ slot_exit (step mb t w) = slot_exit w).
Proof.
  unfold step.
  destruct t as [| |acts].
  - destruct (persist_fields mb w) as (Ex & Sx & _ & Hm).
    destruct (drain_fields (fst (persist mb w))) as (_ & P & X & _ & S & _).
    split.
    + intros hp Hp. rewrite P, (Hm hp Hp). done.
    + intros h1 Hx. rewrite X, S, Ex, Sx. done.
  - destruct (exit_fields mb w) as (Pp & _ & Hm).
    destruct (drain_fields (fst (exit mb w))) as (_ & P & X & _ & S & _).
    split.
    + intros hp Hp. rewrite P, Pp. done.
    + intros h1 Hx. rewrite X, S, (Hm h1 Hx). done.
  - destruct (run_sync_sync acts w) as (_ & B & C & D & _).
    destruct (drain_fields (fst (run_sync acts w))) as (_ & P & X & _ & S & _).
    split.
    + intros hp Hp. rewrite P, B. done.
    + intros h1 Hx. rewrite X, S, C, D. done.
Qed.

Lemma run_frame mb ts : forall w,
  (forall hp, persistPromise w = Some hp -> persistPromise (run mb ts w) = Some hp) /\
  (forall h1, exitPromise w = Some h1 ->
     exitPromise (run mb ts w) = Some h1 /\ slot_exit (run mb ts w) = slot_exit w).
Proof.
  induction ts as [|t ts IH]; intros w; simpl; [split; auto|].
  destruct (step_frame mb t w) as [P X]. destruct (IH (step mb t w)) as [P' X'].
  split.
  - intros hp Hp. auto.
  - intros h1 Hx. destruct (X h1 Hx) as [X1 S1]. destruct (X' h1 X1) as [X2 S2].
    split; congruence.
Qed.

(** ** Settled promises stay settled *)

Lemma settled_stable_refl w : settled_stable w w.
Proof. intros h st H _. done. Qed.

Lemma settled_stable_trans w1 w2 w3 :
  settled_stable w1 w2 -> settled_stable w2 w3 -> settled_stable w1 w3.
Proof. intros H1 H2 h st H Hp. auto. Qed.

Lemma sync_step_stable w w' : sync_step w w' -> settled_stable w w'.
Proof.
  intros (_ & _ & _ & _ & _ & _ & _ & S & _) h st H Hp.
  destruct (S h) as [E|(E & _)]; congruence.
Qed.

Lemma settle_settled_stable h st w : settled_stable w (settle h st w).
Proof. intros h' st' H Hp. by apply settle_stable. Qed.

Lemma settle_thrown_settled_stable h th w : settled_stable w (settle_thrown h th w).
Proof. destruct th; simpl; [apply settle_settled_stable|apply settled_stable_refl]. Qed.

Lemma alloc_settled_stable w : Inv w -> settled_stable w (snd (alloc w)).
Proof.
  intros HI h st H Hp. simpl. rewrite lookup_insert_ne; [done|].
  intros Heq. rewrite (inv_fresh _ HI h) in H; [discriminate|lia].
Qed.

Lemma drain_list_stable rs : forall w, settled_stable w (drain_list rs w).
Proof.
  induction rs as [|r rs IH]; intros w; simpl; [apply settled_stable_refl|].
  destruct (run_reaction r w) as [w'|] eqn:Er.
  - eapply settled_stable_trans; [|apply IH].
    destruct r as [src dst]; simpl in Er.
    destruct (store w !! src) as [[|v|e]|]; try discriminate; injection Er as <-;
      [|apply settle_settled_stable].
    intros h st H Hp. apply settle_stable; [|done]. done.
  - eapply settled_stable_trans; [|apply IH]. intros h st H _. done.
Qed.

Lemma drain_stable w : settled_stable w (drain w).
Proof.
  unfold drain. eapply settled_stable_trans; [|apply drain_list_stable].
  intros h st H _. done.
Qed.

Lemma step_stable mb t w : Inv w -> settled_stable w (step mb t w).
Proof.
  intros HI. unfold step. eapply settled_stable_trans; [|apply drain_stable].
  destruct t as [| |acts].
  - rewrite persist_unfold. destruct (persistPromise w); [apply settled_stable_refl|].
    cbn [fst]. unfold set_persistPromise.
    eapply settled_stable_trans; [apply alloc_settled_stable; done|].
    set (w1 := snd (alloc w)). set (w2 := emit _ _).
    eapply settled_stable_trans with (w2 := w2); [intros h st H _; subst w2; wsimpl; done|].
    eapply settled_stable_trans; [apply sync_step_stable, run_sync_sync|].
    intros h st H Hp. simpl. apply (settle_thrown_settled_stable _ _ _ h st H Hp).
  - rewrite exit_unfold. destruct (exitPromise w); [apply settled_stable_refl|].
    cbn [fst]. intros h st H Hp.
    assert (Hlt : (h < next_id w)%nat).
    { destruct (decide (next_id w <= h)%nat) as [Hle|]; [|lia].
      rewrite (inv_fresh _ HI h Hle) in H. discriminate. }
    set (w2 := emit _ _).
    destruct (run_sync_sync (on_requestExit mb) w2) as (A & _).
    destruct (settle_thrown_fields (next_id w) (snd (run_sync (on_requestExit mb) w2))
                (fst (run_sync (on_requestExit mb) w2))) as (A' & _).
    unfold set_exitPromise, set_reactions, alloc; cbn [snd]; wproj.
    rewrite lookup_insert_ne by (rewrite A', A; subst w2; wsimpl; lia).
    apply settle_thrown_settled_stable; [|done].
    apply (sync_step_stable _ _ (run_sync_sync _ _)); [|done].
    subst w2; wsimpl. rewrite lookup_insert_ne by lia. done.
  - apply sync_step_stable, run_sync_sync.
Qed.

Lemma run_stable mb ts : forall w, Inv w -> settled_stable w (run mb ts w).
Proof.
  induction ts as [|t ts IH]; intros w HI; simpl; [apply settled_stable_refl|].
  eapply settled_stable_trans; [apply step_stable; done|]. apply IH. by apply Inv_step.
Qed.


(** ** A request that fails after diagnostics only *)

Lemma run_sync_diag_throw pre e post : forall w,
  Forall (fun a => is_diag a = true) pre ->
  snd (run_sync (pre ++ MThrow e :: post) w) = Some e /\
  exists log tr,
    fst (run_sync (pre ++ MThrow e :: post) w) =
      mkWorld (store w) (next_id w) (persistPromise w) (exitPromise w) (slot_persist w)
              (slot_exit w) (err_sink w) log (reactions w) (trace w ++ tr) /\
    Forall (fun o => exists lv args, o = EvMessage lv args) tr.
Proof.
  induction pre as [|a pre IH]; intros w Hd; simpl.
  - split; [done|]. exists (startupErrorLog w), []. rewrite app_nil_r, world_eta. auto.
  - inversion Hd as [|? ? Ha Hrest]; subst.
    assert (Hm : exists lv args log, mod_act a w =
              (mkWorld (store w) (next_id w) (persistPromise w) (exitPromise w) (slot_persist w)
                       (slot_exit w) (err_sink w) log (reactions w)
                       (trace w ++ [EvMessage lv args]), None)).
    { destruct a as [| |args|args|args|]; try discriminate; simpl; unfold call_err;
        [| |destruct (err_sink w) eqn:Es]; wsimpl; rewrite <- ?Es; do 3 eexists; reflexivity. }
    destruct Hm as (lv & args & log & ->). cbn iota beta.
    match goal with |- context [run_sync _ ?w1] =>
      destruct (IH w1 Hrest) as (Hs & log' & tr & Hw & Htr) end.
    rewrite Hs. simpl in Hw.
    split; [done|]. exists log', (EvMessage lv args :: tr).
    rewrite Hw, <- app_assoc. split; [done|]. constructor; eauto.
Qed.

Lemma persist_sync_throw_world mb pre e post w :
  on_packFsToBundle mb = pre ++ MThrow e :: post ->
  Forall (fun a => is_diag a = true) pre ->
  persistPromise w = None ->
  snd (persist mb w) = next_id w /\
  exists log tr,
    fst (persist mb w) =
      mkWorld (<[next_id w := Rejected e]> (<[next_id w := Pending]> (store w)))
              (S (next_id w)) (Some (next_id w)) (exitPromise w) (Some (next_id w))
              (slot_exit w) (err_sink w) log (reactions w)
              (trace w ++ ReqPackFsToBundle :: tr ++ [Settled (next_id w) (Rejected e)]) /\
    Forall (fun o => exists lv args, o = EvMessage lv args) tr.
Proof.
  intros Hb Hd Hn. rewrite persist_unfold, Hn. split; [done|]. cbn [fst].
  rewrite Hb. set (w2 := emit _ _).
  destruct (run_sync_diag_throw pre e post w2 Hd) as (-> & log & tr & -> & Htr).
  exists log, tr. split; [|done]. simpl.
  rewrite settle_pending by (subst w2; wsimpl; apply lookup_insert_eq).
  subst w2; wsimpl. by rewrite <- !app_assoc.
Qed.

Lemma exit_sync_throw_world mb pre e post w :
  on_requestExit mb = pre ++ MThrow e :: post ->
  Forall (fun a => is_diag a = true) pre ->
  exitPromise w = None -> reactions w = [] ->
  snd (exit mb w) = S (next_id w) /\
  exists log tr,
    fst (exit mb w) =
      mkWorld (<[S (next_id w) := Pending]>
                 (<[next_id w := Rejected e]> (<[next_id w := Pending]> (store w))))
              (S (S (next_id w))) (persistPromise w) (Some (S (next_id w))) (slot_persist w)
              (Some (next_id w)) (err_sink w) log [ThenFireExit (next_id w) (S (next_id w))]
              (trace w ++ ReqRequestExit :: tr ++ [Settled (next_id w) (Rejected e)]) /\
    Forall (fun o => exists lv args, o = EvMessage lv args) tr.
Proof.
  intros Hb Hd Hn HR. rewrite exit_unfold, Hn. cbn [fst snd].
  rewrite Hb. set (w2 := emit _ _).
  destruct (run_sync_diag_throw pre e post w2 Hd) as (-> & log & tr & -> & Htr).
  simpl. rewrite settle_pending by (subst w2; wsimpl; apply lookup_insert_eq).
  subst w2; wsimpl. split; [done|]. exists log, tr. split; [|done].
  by rewrite HR, <- !app_assoc.
Qed.

(** C3. [persist()] and [exit()] are memoized per interface. In every
    reachable state each request has been issued at most once (exactly
    once when the future exists); after the first call the future exists
    and one request has been issued; and after that call, whatever tasks
    run (callbacks, other calls), a further call returns the same future
    and leaves the state untouched, so it triggers no module request and
    every caller awaits the same promise. Calls are tasks of the host:
    a call re-entering [persist()] or [exit()] from inside the module's
    request is not part of this model. *)
Theorem persist_exit_memoized mb ts ts2 :
  let w := run mb ts init_world in
  count_obs is_req_pack (trace w) = (if persistPromise w then 1 else 0)%nat /\
  count_obs is_req_exit (trace w) = (if exitPromise w then 1 else 0)%nat /\
  (count_obs is_req_pack (trace (fst (persist mb w))) = 1%nat /\
   persistPromise (fst (persist mb w)) = Some (snd (persist mb w)) /\
   let w2 := run mb ts2 (step mb HostPersist w) in
   persist mb w2 = (w2, snd (persist mb w))) /\
  (count_obs is_req_exit (trace (fst (exit mb w))) = 1%nat /\
   exitPromise (fst (exit mb w)) = Some (snd (exit mb w)) /\
   let w2 := run mb ts2 (step mb HostExit w) in
   exit mb w2 = (w2, snd (exit mb w))).
Proof.
  intros w. assert (HI : Inv w) by apply Inv_run, Inv_init.
  assert (Hpp : persistPromise (fst (persist mb w)) = Some (snd (persist mb w))).
  { rewrite persist_unfold. destruct (persistPromise w) eqn:E; done. }
  assert (Hep : exitPromise (fst (exit mb w)) = Some (snd (exit mb w))).
  { rewrite exit_unfold. destruct (exitPromise w) eqn:E; done. }
  split; [apply (inv_count_pack _ HI)|]. split; [apply (inv_count_exit _ HI)|]. split.
  - split; [rewrite (inv_count_pack _ (Inv_persist mb w HI)), Hpp; done|].
    split; [done|]. cbv zeta.
    apply (persist_fields mb _). apply (proj1 (run_frame mb ts2 _)).
    unfold step. destruct (drain_fields (fst (persist mb w))) as (_ & -> & _). done.
  - split; [rewrite (inv_count_exit _ (Inv_exit mb w HI)), Hep; done|].
    split; [done|]. cbv zeta.
    apply (exit_fields mb _). apply (proj2 (run_frame mb ts2 _)).
    unfold step. destruct (drain_fields (fst (exit mb w))) as (_ & _ & -> & _). done.
Qed.

(** C4. In every reachable trace, an Exit event on the bus comes strictly
    after a termination callback of the module, and the future returned by
    [exit()] is fulfilled strictly after an Exit event, itself preceded by
    the termination callback. *)
Theorem exit_event_order mb ts :
  let w := run mb ts init_world in
  (forall l1 l2, trace w = l1 ++ EvExit :: l2 -> In CbExit l1) /\
  (forall h1 l1 l2 v, exitPromise w = Some h1 ->
     trace w = l1 ++ Settled h1 (Fulfilled v) :: l2 ->
     exists k1 k2, l1 = k1 ++ EvExit :: k2 /\ In CbExit k1).
Proof.
  intros w. assert (HI : Inv w) by apply Inv_run, Inv_init.
  split; [apply (inv_exit_cb _ HI)|].
  intros h1 l1 l2 v Hx Ht. pose proof (inv_exit _ HI) as He. rewrite Hx in He.
  destruct He as (h0 & _ & _ & _ & _ & _ & _ & _ & _ & _ & SA).
  pose proof (SA l1 l2 v Ht) as Hin. apply in_split in Hin as (k1 & k2 & ->).
  exists k1, k2. split; [done|]. apply (inv_exit_cb _ HI k1 (k2 ++ Settled h1 (Fulfilled v) :: l2)).
  rewrite Ht, <- app_assoc. done.
Qed.

Lemma exit_event_order_witness :
  exists k1 k2, [ReqRequestExit; CbExit; Settled 0 (Fulfilled VUndefined)] ++ [EvExit]
                = k1 ++ EvExit :: k2 /\ In CbExit k1.
Proof.
  apply (proj2 (exit_event_order (mkModuleBeh [] [MExit]) [HostExit]) 1%nat _ [] VUndefined);
    reflexivity.
Defined.

(** ** The exit future when the module calls back *)

Lemma run_sync_diag_prefix pre rest : forall w,
  Forall (fun a => is_diag a = true) pre ->
  exists log tr,
    run_sync (pre ++ rest) w =
    run_sync rest (mkWorld (store w) (next_id w) (persistPromise w) (exitPromise w)
                           (slot_persist w) (slot_exit w) (err_sink w) log (reactions w)
                           (trace w ++ tr)).
Proof.
  induction pre as [|a pre IH]; intros w Hd; simpl.
  - exists (startupErrorLog w), []. by rewrite app_nil_r, world_eta.
  - inversion Hd as [|? ? Ha Hrest]; subst.
    assert (Hm : exists lv args log, mod_act a w =
              (mkWorld (store w) (next_id w) (persistPromise w) (exitPromise w) (slot_persist w)
                       (slot_exit w) (err_sink w) log (reactions w)
                       (trace w ++ [EvMessage lv args]), None)).
    { destruct a as [| |args|args|args|]; try discriminate; simpl; unfold call_err;
        [| |destruct (err_sink w) eqn:Es]; wsimpl; rewrite <- ?Es; do 3 eexists; reflexivity. }
    destruct Hm as (lv & args & log & ->). cbn iota beta.
    match goal with |- context [run_sync (pre ++ rest) ?w1] =>
      destruct (IH w1 Hrest) as (log' & tr & ->) end.
    exists log', (EvMessage lv args :: tr). simpl. by rewrite <- app_assoc.
Qed.

Lemma drain_exit_ready W h0 h1 v :
  reactions W = [ThenFireExit h0 h1] ->
  store W !! h0 = Some (Fulfilled v) -> store W !! h1 = Some Pending ->
  exitPromise (drain W) = exitPromise W /\
  store (drain W) !! h1 = Some (Fulfilled VUndefined) /\ In EvExit (trace (drain W)).
Proof.
  intros Hr H0 H1. rewrite (drain_one W _ Hr). cbn [run_reaction].
  change (store (set_reactions [] W)) with (store W). rewrite H0.
  rewrite settle_pending by exact H1. wsimpl.
  split; [done|]. split; [apply lookup_insert_eq|].
  apply in_or_app. left. apply in_or_app. right. by left.
Qed.

Lemma exit_callback_step mb pre post w0 :
  Inv w0 ->
  on_requestExit mb = pre ++ MExit :: post ->
  Forall (fun a => is_diag a = true) pre ->
  exitPromise w0 = None ->
  exitPromise (step mb HostExit w0) = Some (snd (exit mb w0)) /\
  store (step mb HostExit w0) !! snd (exit mb w0) = Some (Fulfilled VUndefined) /\
  In EvExit (trace (step mb HostExit w0)).
Proof.
  intros HI Hr Hd He.
  pose proof (inv_exit _ HI) as X. rewrite He in X. destruct X as (_ & Hre & _).
  unfold step. cbn iota.
  rewrite exit_unfold, He. cbv zeta. cbn [fst snd].
  set (w2 := emit ReqRequestExit (set_slot_exit (Some (next_id w0)) (snd (alloc w0)))).
  rewrite Hr. destruct (run_sync_diag_prefix pre (MExit :: post) w2 Hd) as (log & tr & ->).
  set (w2' := mkWorld (store w2) (next_id w2) (persistPromise w2) (exitPromise w2)
                      (slot_persist w2) (slot_exit w2) (err_sink w2) log (reactions w2)
                      (trace w2 ++ tr)).
  set (w3 := settle (next_id w0) (Fulfilled VUndefined) (emit CbExit w2')).
  assert (E1 : run_sync (MExit :: post) w2' = run_sync post w3) by reflexivity.
  rewrite E1.
  assert (P2 : store (emit CbExit w2') !! next_id w0 = Some Pending)
    by (unfold w2', w2, alloc; wsimpl; apply lookup_insert_eq).
  assert (St3 : store w3 !! next_id w0 = Some (Fulfilled VUndefined)).
  { unfold w3. rewrite settle_store_eq. by rewrite decide_True. }
  destruct (settle_fields (next_id w0) (Fulfilled VUndefined) (emit CbExit w2'))
    as (N3 & _ & _ & _ & _ & _ & _ & R3).
  pose proof (run_sync_sync post w3) as S4.
  destruct S4 as (N4 & _ & _ & _ & R4 & _).
  set (w4 := settle_thrown (next_id w0) (snd (run_sync post w3)) (fst (run_sync post w3))).
  assert (St4 : store w4 !! next_id w0 = Some (Fulfilled VUndefined)).
  { apply settle_thrown_settled_stable; [|discriminate].
    apply (sync_step_stable _ _ (run_sync_sync post w3)); [exact St3|discriminate]. }
  destruct (settle_thrown_fields (next_id w0) (snd (run_sync post w3)) (fst (run_sync post w3)))
    as (N5 & _ & _ & _ & _ & _ & _ & R5).
  fold w4 in N5, R5.
  assert (Nw4 : next_id w4 = S (next_id w0)).
  { rewrite N5, N4. unfold w3. rewrite N3. reflexivity. }
  assert (Rw4 : reactions w4 = []).
  { rewrite R5, R4. unfold w3. rewrite R3. unfold w2', w2. wsimpl. exact Hre. }
  destruct (drain_exit_ready
              (set_exitPromise (next_id w4)
                 (set_reactions (reactions (snd (alloc w4)) ++ [ThenFireExit (next_id w0) (next_id w4)])
                    (snd (alloc w4))))
              (next_id w0) (next_id w4) VUndefined) as (D1 & D2 & D3).
  - unfold set_exitPromise, set_reactions, alloc. cbn [snd]. wproj. by rewrite Rw4.
  - unfold set_exitPromise, set_reactions, alloc. cbn [snd]. wproj.
    rewrite lookup_insert_ne by lia. exact St4.
  - unfold set_exitPromise, set_reactions, alloc. cbn [snd]. wproj. apply lookup_insert_eq.
  - split; [by rewrite D1|]. split; [exact D2|exact D3].
Qed.

Lemma persist_callback_world mb pre a post w :
  on_packFsToBundle mb = pre ++ MPersist a :: post ->
  Forall (fun a => is_diag a = true) pre ->
  persistPromise w = None ->
  snd (persist mb w) = next_id w /\
  persistPromise (fst (persist mb w)) = Some (next_id w) /\
  store (fst (persist mb w)) !! next_id w = Some (Fulfilled (VArchive a)).
Proof.
  intros Hb Hd Hn. rewrite persist_unfold, Hn. cbn [fst snd].
  split; [reflexivity|]. split; [reflexivity|].
  unfold set_persistPromise; wproj.
  rewrite Hb. set (w2 := emit _ _).
  destruct (run_sync_diag_prefix pre (MPersist a :: post) w2 Hd) as (log & tr & ->).
  set (w2' := mkWorld (store w2) (next_id w2) (persistPromise w2) (exitPromise w2)
                      (slot_persist w2) (slot_exit w2) (err_sink w2) log (reactions w2)
                      (trace w2 ++ tr)).
  set (w3 := set_slot_persist None (settle (next_id w) (Fulfilled (VArchive a)) (emit CbPersist w2'))).
  assert (E1 : run_sync (MPersist a :: post) w2' = run_sync post w3) by reflexivity.
  rewrite E1.
  assert (P2 : store (emit CbPersist w2') !! next_id w = Some Pending)
    by (unfold w2', w2, alloc; wsimpl; apply lookup_insert_eq).
  assert (St3 : store w3 !! next_id w = Some (Fulfilled (VArchive a))).
  { unfold w3, set_slot_persist. wproj. rewrite settle_store_eq. by rewrite decide_True. }
  apply settle_thrown_settled_stable; [|discriminate].
  apply (sync_step_stable _ _ (run_sync_sync post w3)); [exact St3|discriminate].
Qed.

(** C5 (counterexample). A request that throws after handing over the
    archive leaves the future fulfilled with that archive; and after a
    request that throws first, the callback is still installed, so the
    module can still invoke it (the future stays rejected). *)
Lemma persist_throw_not_rejected :
  store (step (mkModuleBeh [MPersist [1; 2]%Z; MThrow (JsError "boom")] []) HostPersist
              init_world) !! 0%nat = Some (Fulfilled (VArchive [1; 2]%Z)) /\
  trace (run (mkModuleBeh [MThrow (JsError "boom")] []) [HostPersist; ModuleTask [MPersist [7]%Z]]
             init_world)
    = [ReqPackFsToBundle; Settled 0 (Rejected (JsError "boom")); CbPersist].
Proof. split; reflexivity. Qed.

(** C5 (amended). Let the first [persist()] call run [_packFsToBundle]
    after the module has emitted diagnostics only. If it throws [e], the
    call issues one request and settles the future, rejected with exactly
    [e], with no callback in between; the [module.persist] callback stays
    installed. The future stays rejected with [e] whatever tasks follow (a
    later call of the callback by the module has no effect on it), and
    [persist()] keeps returning it. If instead the module invokes the
    callback with an archive (whatever it does next, throwing included),
    the future is fulfilled with that archive, stays so whatever tasks
    follow, and [persist()] keeps returning it. *)
Theorem persist_sync_throw_rejects mb ts :
  let w0 := run mb ts init_world in
  persistPromise w0 = None ->
  let h := next_id w0 in
  (forall pre e post,
    on_packFsToBundle mb = pre ++ MThrow e :: post ->
    Forall (fun a => is_diag a = true) pre ->
    snd (persist mb w0) = h /\
    store (fst (persist mb w0)) !! h = Some (Rejected e) /\
    slot_persist (fst (persist mb w0)) = Some h /\
    (exists tr, trace (fst (persist mb w0))
                  = trace w0 ++ ReqPackFsToBundle :: tr ++ [Settled h (Rejected e)] /\
                Forall (fun o => exists lv args, o = EvMessage lv args) tr) /\
    forall ts2, let w2 := run mb (HostPersist :: ts2) w0 in
      store w2 !! h = Some (Rejected e) /\ persist mb w2 = (w2, h)) /\
  (forall pre archive post,
    on_packFsToBundle mb = pre ++ MPersist archive :: post ->
    Forall (fun a => is_diag a = true) pre ->
    snd (persist mb w0) = h /\
    forall ts2, let w2 := run mb (HostPersist :: ts2) w0 in
      store w2 !! h = Some (Fulfilled (VArchive archive)) /\ persist mb w2 = (w2, h)).
Proof.
  intros w0 Hn h. assert (HI : Inv w0) by apply Inv_run, Inv_init.
  split.
  { intros pre e post Hb Hd.
    destruct (persist_sync_throw_world mb pre e post w0 Hb Hd Hn) as (Hh & log & tr & Hw & Htr).
    assert (Hst : store (fst (persist mb w0)) !! h = Some (Rejected e))
      by (rewrite Hw; simpl; apply lookup_insert_eq).
    split; [done|]. split; [done|]. split; [by rewrite Hw|]. split; [exists tr; by rewrite Hw|].
    intros ts2 w2. simpl in w2. subst w2. split.
    - apply run_stable; [apply Inv_step, HI|..|done].
      apply drain_stable; [|done]. done.
    - apply (persist_fields mb _). apply (proj1 (run_frame mb ts2 _)).
      unfold step. destruct (drain_fields (fst (persist mb w0))) as (_ & -> & _).
      by rewrite Hw. }
  { intros pre archive post Hb Hd.
    destruct (persist_callback_world mb pre archive post w0 Hb Hd Hn) as (Hh & Hp & Hst).
    split; [exact Hh|].
    intros ts2 w2. simpl in w2. subst w2. split.
    - apply run_stable; [apply Inv_step, HI|..|discriminate].
      apply drain_stable; [exact Hst|discriminate].
    - apply (persist_fields mb _). apply (proj1 (run_frame mb ts2 _)).
      unfold step. destruct (drain_fields (fst (persist mb w0))) as (_ & -> & _).
      exact Hp. }
Qed.

Lemma persist_sync_throw_rejects_witness :
  store (run (mkModuleBeh [MLog ["packing"]; MThrow (JsError "boom")] []) [HostPersist; ModuleTask [MPersist [7]%Z]]
             (run (mkModuleBeh [MLog ["packing"]; MThrow (JsError "boom")] []) [] init_world))
    !! 0%nat = Some (Rejected (JsError "boom")) /\
  store (run (mkModuleBeh [MLog ["packing"]; MPersist [1; 2]%Z; MThrow (JsError "boom")] []) [HostPersist]
             (run (mkModuleBeh [MLog ["packing"]; MPersist [1; 2]%Z; MThrow (JsError "boom")] []) [] init_world))
    !! 0%nat = Some (Fulfilled (VArchive [1; 2]%Z)).
Proof.
  split.
  - apply (proj2 (proj2 (proj2 (proj2
      (proj1 (persist_sync_throw_rejects (mkModuleBeh [MLog ["packing"]; MThrow (JsError "boom")] [])
                [] eq_refl)
         [MLog ["packing"]] (JsError "boom") [] eq_refl ltac:(repeat constructor)))))
      [ModuleTask [MPersist [7]%Z]]).
  - apply (proj2
      (proj2 (persist_sync_throw_rejects
                (mkModuleBeh [MLog ["packing"]; MPersist [1; 2]%Z; MThrow (JsError "boom")] [])
                [] eq_refl)
         [MLog ["packing"]] [1; 2]%Z [MThrow (JsError "boom")] eq_refl ltac:(repeat constructor))
      []).
Defined.

(** C10 (counterexample). A shutdown request that throws after calling the
    termination callback leaves the future of [exit()] fulfilled, with an
    Exit event on the bus. *)
Lemma exit_throw_after_callback :
  store (step (mkModuleBeh [] [MExit; MThrow (JsError "boom")]) HostExit init_world) !! 1%nat
    = Some (Fulfilled VUndefined) /\
  trace (step (mkModuleBeh [] [MExit; MThrow (JsError "boom")]) HostExit init_world)
    = [ReqRequestExit; CbExit; Settled 0 (Fulfilled VUndefined); EvExit;
       Settled 1 (Fulfilled VUndefined)].
Proof. split; reflexivity. Qed.

(** C10 (amended). Let the first [exit()] call run [_requestExit] after
    the module has emitted diagnostics only. If it throws [e], the future
    [exit()] returns is rejected with exactly [e] once the call's task
    ends, and whatever tasks follow it stays rejected, no Exit event is
    ever fired, [exit()] keeps returning it without a new request, and
    exactly one request was made. If instead the module calls the
    termination callback (whatever it does next, throwing included), the
    Exit event is fired within the call's task, the future is fulfilled
    and stays so whatever tasks follow, and [exit()] keeps returning it. *)
Theorem exit_sync_throw_rejects mb ts :
  let w0 := run mb ts init_world in
  exitPromise w0 = None ->
  (forall pre e post,
    on_requestExit mb = pre ++ MThrow e :: post ->
    Forall (fun a => is_diag a = true) pre ->
    let h1 := S (next_id w0) in
    snd (exit mb w0) = h1 /\
    forall ts2, let w2 := run mb (HostExit :: ts2) w0 in
      store w2 !! h1 = Some (Rejected e) /\ ~ In EvExit (trace w2) /\
      exit mb w2 = (w2, h1) /\ count_obs is_req_exit (trace w2) = 1%nat) /\
  (forall pre post,
    on_requestExit mb = pre ++ MExit :: post ->
    Forall (fun a => is_diag a = true) pre ->
    let h1 := snd (exit mb w0) in
    In EvExit (trace (step mb HostExit w0)) /\
    forall ts2, let w2 := run mb (HostExit :: ts2) w0 in
      store w2 !! h1 = Some (Fulfilled VUndefined) /\ exit mb w2 = (w2, h1)).
Proof.
  intros w0 Hn. assert (HI : Inv w0) by apply Inv_run, Inv_init.
  split.
  {
      intros pre e post Hb Hd h1.
    pose proof (inv_exit _ HI) as He. rewrite Hn in He. destruct He as (_ & HR & _).
    destruct (exit_sync_throw_world mb pre e post w0 Hb Hd Hn HR) as (Hh & log & tr & Hw & Htr).
    split; [done|]. intros ts2 w2. simpl in w2. subst w2.
    set (n := next_id w0) in *.
    assert (Hstep : store (step mb HostExit w0) !! n = Some (Rejected e) /\
                    store (step mb HostExit w0) !! h1 = Some (Rejected e)).
    { unfold step. rewrite Hw. rewrite (drain_one _ (ThenFireExit n h1)) by done. simpl.
      rewrite lookup_insert_ne by lia. rewrite lookup_insert_eq.
      rewrite settle_pending by (simpl; apply lookup_insert_eq). simpl.
      rewrite lookup_insert_eq, lookup_insert_ne by lia.
      rewrite lookup_insert_ne by lia. rewrite lookup_insert_eq. done. }
    assert (HI1 : Inv (step mb HostExit w0)) by apply Inv_step, HI.
    assert (Hx1 : exitPromise (step mb HostExit w0) = Some h1 /\
                  slot_exit (step mb HostExit w0) = Some n).
    { unfold step. destruct (drain_fields (fst (exit mb w0))) as (_ & _ & -> & _ & -> & _).
      by rewrite Hw. }
    destruct Hx1 as [Hx1 Hs1].
    destruct (proj2 (run_frame mb ts2 _) h1 Hx1) as [Hx2 Hs2].
    assert (HI2 : Inv (run mb ts2 (step mb HostExit w0))) by (apply Inv_run, HI1).
    assert (Hn2 : store (run mb ts2 (step mb HostExit w0)) !! n = Some (Rejected e))
      by (apply run_stable; [done | apply Hstep | done]).
    split; [apply run_stable; [done | apply Hstep | done]|].
    split.
    - intros Hin. pose proof (inv_exit _ HI2) as He. rewrite Hx2 in He.
      destruct He as (h0 & Hs0 & _ & _ & _ & _ & _ & _ & _ & X & _).
      rewrite Hs2, Hs1 in Hs0. injection Hs0 as <-.
      specialize (X Hin). rewrite Hn2 in X. done.
    - split; [apply (exit_fields mb _); done|].
      rewrite (inv_count_exit _ HI2), Hx2. done. }
  { intros pre post Hb Hd h1.
    destruct (exit_callback_step mb pre post w0 HI Hb Hd Hn) as (Hx & Hst & Hev).
    split; [exact Hev|].
    intros ts2 w2. simpl in w2. subst w2. split.
    - apply run_stable; [apply Inv_step, HI|exact Hst|discriminate].
    - apply (exit_fields mb _). exact (proj1 (proj2 (run_frame mb ts2 _) h1 Hx)). }
Qed.

Lemma exit_sync_throw_rejects_witness :
  store (run (mkModuleBeh [] [MWarn ["bye"]; MThrow (JsError "boom")]) [HostExit; HostExit]
             (run (mkModuleBeh [] [MWarn ["bye"]; MThrow (JsError "boom")]) [] init_world))
    !! 1%nat = Some (Rejected (JsError "boom")) /\
  In EvExit (trace (step (mkModuleBeh [] [MWarn ["bye"]; MExit; MThrow (JsError "boom")]) HostExit
                     (run (mkModuleBeh [] [MWarn ["bye"]; MExit; MThrow (JsError "boom")]) [] init_world))).
Proof.
  split.
  - apply (proj2
      (proj1 (exit_sync_throw_rejects (mkModuleBeh [] [MWarn ["bye"]; MThrow (JsError "boom")]) []
                eq_refl)
         [MWarn ["bye"]] (JsError "boom") [] eq_refl ltac:(repeat constructor))
      [HostExit]).
  - exact (proj1
      (proj2 (exit_sync_throw_rejects (mkModuleBeh [] [MWarn ["bye"]; MExit; MThrow (JsError "boom")]) []
                eq_refl)
         [MWarn ["bye"]] [MThrow (JsError "boom")] eq_refl ltac:(repeat constructor))).
Defined.

Example json_fragment_example :
  fragment ["a"; "b"] = String.append "[" (String.append (json_string "a")
                          (String.append "," (String.append (json_string "b") (String.append "]" newline)))).
Proof. reflexivity. Qed.

Example exit_then_event :
  let mb := mkModuleBeh [] [] in
  trace (run mb [HostExit; ModuleTask [MExit]] init_world)
  = [ReqRequestExit; CbExit; Settled 0 (Fulfilled VUndefined); EvExit;
     Settled 1 (Fulfilled VUndefined)].
Proof. reflexivity. Qed.

End LifecycleProofs.

Module StartupProofs.
Import Lifecycle Startup LifecycleProofs.

Lemma str_app_cons c s1 s2 : String.append (String c s1) s2 = String c (String.append s1 s2).
Proof. reflexivity. Qed.

Lemma str_app_nil_r s : String.append s EmptyString = s.
Proof. induction s as [|c s IH]; [done|]. by rewrite str_app_cons, IH. Qed.

Lemma str_app_assoc s1 s2 s3 :
  String.append s1 (String.append s2 s3) = String.append (String.append s1 s2) s3.
Proof. induction s1 as [|c s1 IH]; [done|]. by rewrite !str_app_cons, IH. Qed.

Lemma errors_of_app l1 l2 : errors_of (l1 ++ l2) = errors_of l1 ++ errors_of l2.
Proof.
  induction l1 as [|o l1 IH]; [done|]. simpl.
  destruct o; try done. destruct (String.eqb level "error"); simpl; by rewrite IH.
Qed.

Lemma frag_concat_app l1 l2 :
  frag_concat (l1 ++ l2) = String.append (frag_concat l1) (frag_concat l2).
Proof.
  induction l1 as [|a l1 IH]; [done|]. simpl. by rewrite IH, str_app_assoc.
Qed.

Lemma frag_concat_nonempty l : l <> [] -> (0 < String.length (frag_concat l))%nat.
Proof.
  destruct l as [|a l]; [done|]. intros _.
  assert (H : exists c s, frag_concat (a :: l) = String c s) by (do 2 eexists; reflexivity).
  destruct H as (c & s & ->). simpl. lia.
Qed.

Lemma tracks_refl w : tracks w w.
Proof. split; [done|]. exists []. by rewrite app_nil_r, str_app_nil_r. Qed.

Lemma tracks_trans w1 w2 w3 : tracks w1 w2 -> tracks w2 w3 -> tracks w1 w3.
Proof.
  intros (S1 & l1 & T1 & L1) (S2 & l2 & T2 & L2). split; [congruence|].
  exists (l1 ++ l2). rewrite T2, T1, app_assoc. split; [done|].
  by rewrite L2, L1, errors_of_app, frag_concat_app, str_app_assoc.
Qed.

Lemma tracks_intro w w' l :
  err_sink w' = err_sink w -> trace w' = trace w ++ l -> errors_of l = [] ->
  startupErrorLog w' = startupErrorLog w -> tracks w w'.
Proof.
  intros S T E L. split; [done|]. exists l. by rewrite T, E, L, str_app_nil_r.
Qed.

Lemma tracks_emit o w : errors_of [o] = [] -> tracks w (emit o w).
Proof. intros E. by apply (tracks_intro _ _ [o]). Qed.

Lemma tracks_settle h st w : tracks w (settle h st w).
Proof.
  destruct (settle_cases h st w) as [(_ & ->)|(_ & ->)]; [|apply tracks_refl].
  by apply (tracks_intro _ _ [Settled h st]).
Qed.

Lemma tracks_settle_thrown h th w : tracks w (settle_thrown h th w).
Proof. destruct th; [apply tracks_settle|apply tracks_refl]. Qed.

Lemma tracks_mod_act a w : err_sink w = StartupErrFn -> tracks w (fst (mod_act a w)).
Proof.
  intros Hs. destruct a as [archive| |args|args|args|e]; simpl.
  - destruct (slot_persist w); simpl; [|apply tracks_refl].
    eapply tracks_trans; [apply (tracks_emit CbPersist); done|].
    eapply tracks_trans; [apply tracks_settle|].
    by apply (tracks_intro _ _ []); [| rewrite app_nil_r | |].
  - destruct (slot_exit w); simpl; [|apply tracks_refl].
    eapply tracks_trans; [apply (tracks_emit CbExit); done|]. apply tracks_settle.
  - by apply tracks_emit.
  - by apply tracks_emit.
  - unfold call_err. rewrite Hs. split; [done|]. exists [EvMessage "error" args].
    split; [done|]. simpl. by rewrite str_app_nil_r.
  - apply tracks_refl.
Qed.

Lemma tracks_run_sync acts : forall w, err_sink w = StartupErrFn -> tracks w (fst (run_sync acts w)).
Proof.
  induction acts as [|a acts IH]; intros w Hs; simpl; [apply tracks_refl|].
  pose proof (tracks_mod_act a w Hs) as H.
  destruct (mod_act a w) as [w1 [e|]]; simpl in *; [done|].
  eapply tracks_trans; [exact H|]. apply IH. destruct H as [-> _]. done.
Qed.

Lemma tracks_persist mb w : err_sink w = StartupErrFn -> tracks w (fst (persist mb w)).
Proof.
  intros Hs. rewrite persist_unfold. destruct (persistPromise w); [apply tracks_refl|].
  cbn [fst]. set (w2 := emit _ _).
  assert (T2 : tracks w w2) by (subst w2; apply (tracks_intro _ _ [ReqPackFsToBundle]); done).
  eapply tracks_trans; [exact T2|].
  assert (T3 := tracks_run_sync (on_packFsToBundle mb) w2 ltac:(destruct T2 as [-> _]; done)).
  eapply tracks_trans; [exact T3|].
  eapply tracks_trans; [apply tracks_settle_thrown|].
  by apply (tracks_intro _ _ []); [| rewrite app_nil_r | |].
Qed.

Lemma exit_first_tracks mb w :
  exitPromise w = None -> err_sink w = StartupErrFn ->
  tracks w (fst (exit mb w)) /\
  exists l, trace (fst (exit mb w)) = trace w ++ ReqRequestExit :: l.
Proof.
  intros Hn Hs. rewrite exit_unfold, Hn. cbn [fst]. set (w2 := emit _ _).
  assert (T2 : tracks w w2) by (subst w2; apply (tracks_intro _ _ [ReqRequestExit]); done).
  assert (T3 := tracks_run_sync (on_requestExit mb) w2 ltac:(destruct T2 as [-> _]; done)).
  assert (T4 : tracks w2 (set_exitPromise (next_id (settle_thrown (next_id w)
                 (snd (run_sync (on_requestExit mb) w2)) (fst (run_sync (on_requestExit mb) w2))))
               (set_reactions
                  (reactions (snd (alloc (settle_thrown (next_id w)
                     (snd (run_sync (on_requestExit mb) w2)) (fst (run_sync (on_requestExit mb) w2)))))
                   ++ [ThenFireExit (next_id w) (next_id (settle_thrown (next_id w)
                     (snd (run_sync (on_requestExit mb) w2)) (fst (run_sync (on_requestExit mb) w2))))])
                  (snd (alloc (settle_thrown (next_id w)
                     (snd (run_sync (on_requestExit mb) w2)) (fst (run_sync (on_requestExit mb) w2)))))))).
  { eapply tracks_trans; [exact T3|].
    eapply tracks_trans; [apply tracks_settle_thrown|].
    by apply (tracks_intro _ _ []); [| rewrite app_nil_r | |]. }
  split; [by eapply tracks_trans|].
  destruct T4 as (_ & l & Tl & _). exists l. rewrite Tl. subst w2. simpl. by rewrite <- app_assoc.
Qed.

Lemma tracks_exit mb w : err_sink w = StartupErrFn -> tracks w (fst (exit mb w)).
Proof.
  intros Hs. destruct (exitPromise w) as [h|] eqn:E.
  - rewrite exit_unfold, E. apply tracks_refl.
  - by apply exit_first_tracks.
Qed.

Lemma tracks_drain_list rs : forall w, tracks w (drain_list rs w).
Proof.
  induction rs as [|r rs IH]; intros w; simpl; [apply tracks_refl|].
  destruct (run_reaction r w) as [w'|] eqn:Er.
  - eapply tracks_trans; [|apply IH]. destruct r as [src dst]. simpl in Er.
    destruct (store w !! src) as [[|v|e]|]; try discriminate; injection Er as <-.
    + eapply tracks_trans; [apply (tracks_emit EvExit); done|]. apply tracks_settle.
    + apply tracks_settle.
  - eapply tracks_trans; [|apply IH]. by apply (tracks_intro _ _ []); [| rewrite app_nil_r | |].
Qed.

Lemma tracks_drain w : tracks w (drain w).
Proof.
  unfold drain. eapply tracks_trans; [|apply tracks_drain_list].
  by apply (tracks_intro _ _ []); [| rewrite app_nil_r | |].
Qed.

Lemma tracks_step mb t w : err_sink w = StartupErrFn -> tracks w (step mb t w).
Proof.
  intros Hs. unfold step. eapply tracks_trans; [|apply tracks_drain].
  destruct t; [by apply tracks_persist|by apply tracks_exit|by apply tracks_run_sync].
Qed.

Lemma await_exit_cases mb h ts : forall w, err_sink w = StartupErrFn ->
  match await_exit mb h ts w with
  | SReady _ => False
  | SFailed e w' => tracks w w' /\
      ((exists v, store w' !! h = Some (Fulfilled v)) /\ e = JsError (startupErrorLog w') \/
       store w' !! h = Some (Rejected e))
  | SPending w' => tracks w w' /\ (forall v, store w' !! h <> Some (Fulfilled v)) /\
      (forall e, store w' !! h <> Some (Rejected e))
  end.
Proof.
  induction ts as [|t ts IH]; intros w Hs; simpl.
  - destruct (store w !! h) as [[|v|e]|] eqn:E.
    + split; [apply tracks_refl|]. rewrite E. split; congruence.
    + split; [apply tracks_refl|]. left. eauto.
    + split; [apply tracks_refl|]. by right.
    + split; [apply tracks_refl|]. rewrite E. split; congruence.
  - destruct (store w !! h) as [[|v|e]|] eqn:E.
    + pose proof (tracks_step mb t w Hs) as Tst.
      specialize (IH (step mb t w) ltac:(destruct Tst as [-> _]; done)).
      destruct (await_exit mb h ts (step mb t w)); try done;
        destruct IH as [T R]; (split; [eapply tracks_trans; eauto | exact R]).
    + split; [apply tracks_refl|]. left. eauto.
    + split; [apply tracks_refl|]. by right.
    + pose proof (tracks_step mb t w Hs) as Tst.
      specialize (IH (step mb t w) ltac:(destruct Tst as [-> _]; done)).
      destruct (await_exit mb h ts (step mb t w)); try done;
        destruct IH as [T R]; (split; [eapply tracks_trans; eauto | exact R]).
Qed.

Lemma construct_world sb :
  sync_step startup_world (fst (construct sb)) /\ tracks startup_world (fst (construct sb)).
Proof.
  unfold construct.
  pose proof (run_sync_sync (sb_instantiate sb) startup_world) as S1.
  pose proof (tracks_run_sync (sb_instantiate sb) startup_world eq_refl) as T1.
  destruct (run_sync (sb_instantiate sb) startup_world) as [w1 [e|]]; simpl in *; [done|].
  pose proof (run_sync_sync (sb_callMain sb) w1) as S2.
  pose proof (tracks_run_sync (sb_callMain sb) w1 ltac:(destruct T1 as [-> _]; done)) as T2.
  destruct (run_sync (sb_callMain sb) w1) as [w2 [e|]]; simpl in *.
  - split; [eapply sync_step_trans|eapply tracks_trans]; eauto.
  - pose proof (run_sync_sync (sb_runRuntime sb) w2) as S3.
    pose proof (tracks_run_sync (sb_runRuntime sb) w2
                  ltac:(destruct T1 as [E1 _]; destruct T2 as [E2 _]; rewrite E2, E1; done)) as T3.
    split; [eapply sync_step_trans; [eapply sync_step_trans|]|
            eapply tracks_trans; [eapply tracks_trans|]]; eauto.
Qed.

Lemma count_obs_zero_not_in f o l : count_obs f l = 0%nat -> f o = true -> ~ In o l.
Proof.
  unfold count_obs. intros H Ho Hin. apply length_zero_iff_nil in H.
  assert (In o (List.filter f l)) by (apply filter_In; auto). rewrite H in *. done.
Qed.

(** C2 (counterexample). [callMain] prints an error and then throws: the
    startup fails with the thrown exception, whose message is not the
    log, and no exit is requested. *)
Lemma dos_direct_callMain_throw :
  let sb := mkStartupBeh [] [MErr ["boom"]; MThrow (JsError "abort")] [] (mkModuleBeh [] [MExit]) [] in
  startupErrorLog (fst (construct sb)) = fragment ["boom"] /\
  dos_direct sb = SFailed (JsError "abort") (fst (construct sb)) /\
  trace (fst (construct sb)) = [EvMessage "error" ["boom"]].
Proof. split; [|split]; reflexivity. Qed.

(** C2 (amended). If [wasm.instantiate] or [callMain] throws, [DosDirect]
    rejects with that exception and requests no exit, whatever was logged.
    Otherwise, once the interface is constructed, the Startup Error Log is
    the concatenation, in emission order, of the fragments
    [JSON.stringify(args) + "\n"] of every error diagnostic emitted. If no
    error was emitted, the sink is swapped for the forwarding-only [errFn]
    and the interface is returned. If one was, no interface is ever
    returned: [exit()] is requested right after construction. When the
    exit future is fulfilled, [DosDirect] rejects with an [Error] whose
    message is the log at that moment: the fragments of every error
    diagnostic emitted so far, in emission order (those of the startup
    first, so the message starts with the startup log). When the exit
    future is rejected, [DosDirect] rejects with that error; while it is
    pending, [DosDirect] stays pending. *)
Theorem dos_direct_startup_log sb :
  let wc := fst (construct sb) in
  match snd (construct sb) with
  | Some e => dos_direct sb = SFailed e wc /\ ~ In ReqRequestExit (trace wc)
  | None =>
      startupErrorLog wc = frag_concat (errors_of (trace wc)) /\
      (errors_of (trace wc) = [] -> dos_direct sb = SReady (set_err_sink ErrFn wc)) /\
      (errors_of (trace wc) <> [] ->
       let h := snd (exit (sb_module sb) wc) in
       match dos_direct sb with
       | SReady _ => False
       | SFailed e w =>
           (exists l, trace w = trace wc ++ ReqRequestExit :: l) /\
           (((exists v, store w !! h = Some (Fulfilled v)) /\
             e = JsError (startupErrorLog w) /\
             startupErrorLog w = frag_concat (errors_of (trace w)) /\
             exists rest, startupErrorLog w = String.append (startupErrorLog wc) rest) \/
            store w !! h = Some (Rejected e))
       | SPending w =>
           (exists l, trace w = trace wc ++ ReqRequestExit :: l) /\
           (forall v, store w !! h <> Some (Fulfilled v)) /\
           (forall e, store w !! h <> Some (Rejected e))
       end)
  end.
Proof.
  destruct (construct_world sb) as [(_ & _ & Hx & _ & Hr & Hs & _ & _ & l0 & T0 & O0) (_ & l1 & T1 & L1)].
  unfold dos_direct. destruct (construct sb) as [wc [e|]] eqn:Ec; simpl in *.
  { split; [done|]. rewrite T0. simpl.
    apply (count_obs_zero_not_in is_req_exit); [|done]. apply (obs_ok_counts _ _ O0). }
  assert (Hlog : startupErrorLog wc = frag_concat (errors_of (trace wc))) by (rewrite L1, T1; done).
  split; [done|]. split.
  { intros He. rewrite Hlog, He. done. }
  intros Hne.
  assert (Hlen : Nat.ltb 0 (String.length (startupErrorLog wc)) = true)
    by (apply Nat.ltb_lt; rewrite Hlog; by apply frag_concat_nonempty).
  rewrite Hlen.
  destruct (exit_first_tracks (sb_module sb) wc Hx Hs) as (Tex & lx & Tx).
  assert (Tst : tracks wc (step (sb_module sb) HostExit wc))
    by (unfold step; eapply tracks_trans; [exact Tex|apply tracks_drain]).
  assert (Hex : exists l, trace (step (sb_module sb) HostExit wc) = trace wc ++ ReqRequestExit :: l).
  { destruct (tracks_drain (fst (exit (sb_module sb) wc))) as (_ & l & Tl & _).
    exists (lx ++ l). unfold step. rewrite Tl, Tx, <- app_assoc. done. }
  pose proof (await_exit_cases (sb_module sb) (snd (exit (sb_module sb) wc)) (sb_later sb)
                (step (sb_module sb) HostExit wc) ltac:(destruct Tst as [-> _]; done)) as Hc.
  assert (Hext : forall w', tracks (step (sb_module sb) HostExit wc) w' ->
            exists l, trace w' = trace wc ++ ReqRequestExit :: l).
  { intros w' (_ & l & Tl & _). destruct Hex as [l' Hl']. exists (l' ++ l).
    rewrite Tl, Hl'. rewrite <- app_assoc. done. }
  destruct (await_exit _ _ _ _) as [w'|e w'|w'].
  - done.
  - destruct Hc as [Tw [[Hf ->]|Hrej]].
    + split; [by apply Hext|]. left.
      destruct (tracks_trans _ _ _ Tst Tw) as (_ & l & Tl & Ll).
      split; [exact Hf|]. split; [reflexivity|]. split; [|eexists; exact Ll].
      rewrite Ll, Tl, errors_of_app, frag_concat_app, Hlog. reflexivity.
    + split; [by apply Hext|]. by right.
  - destruct Hc as [Tw Hp]. split; [by apply Hext|done].
Qed.

Lemma dos_direct_startup_log_witness :
  let sb := mkStartupBeh [] [] [MErr ["bad"]] (mkModuleBeh [] [MErr ["late"]; MExit]) [] in
  dos_direct sb = SFailed (JsError (String.append (fragment ["bad"]) (fragment ["late"])))
                          (run (sb_module sb) [HostExit] (fst (construct sb))) /\
  match dos_direct sb with
  | SFailed e w => e = JsError (frag_concat (errors_of (trace w))) /\
                   errors_of (trace w) = [["bad"]; ["late"]]
  | _ => False
  end.
Proof.
  intros sb.
  assert (E : dos_direct sb =
              SFailed (JsError (String.append (fragment ["bad"]) (fragment ["late"])))
                      (run (sb_module sb) [HostExit] (fst (construct sb))))
    by (vm_compute; reflexivity).
  split; [exact E|].
  pose proof (dos_direct_startup_log sb) as H. cbv zeta in H.
  replace (snd (construct sb)) with (@None Exn) in H by (vm_compute; reflexivity).
  destruct H as [_ [_ H]].
  specialize (H ltac:(vm_compute; discriminate)).
  rewrite E in H |- *.
  destruct H as [_ [(_ & He & Hl & _)|H]].
  - split; [rewrite He, Hl; reflexivity|]. vm_compute. reflexivity.
  - vm_compute in H. discriminate.
Defined.

End StartupProofs.

Module ScreenProofs.

Import Screen.
Local Open Scope Z_scope.

Lemma alpha_at_step (v : U8View) (next k : Z) :
  k <> byteOffset v + next ->
  alpha_at v (next + 4) k = alpha_at v next k.
Proof.
  intros Hk. unfold alpha_at.
  replace (k - byteOffset v - (next + 4)) with ((k - byteOffset v - next) + (-1) * 4) by lia.
  rewrite Z.mod_add by lia.
  destruct (Z.leb_spec (byteOffset v + (next + 4)) k);
  destruct (Z.leb_spec (byteOffset v + next) k);
  destruct (Z.ltb_spec k (byteOffset v + byteLength v));
  destruct (Z.eqb_spec ((k - byteOffset v - next) mod 4) 0);
  simpl; try reflexivity; exfalso; Z.div_mod_to_equations; lia.
Qed.

Lemma alpha_at_start (v : U8View) (next : Z) :
  0 <= next < byteLength v -> alpha_at v next (byteOffset v + next) = true.
Proof.
  intros H. unfold alpha_at.
  replace (byteOffset v + next - byteOffset v - next) with 0 by lia.
  destruct (Z.leb_spec (byteOffset v + next) (byteOffset v + next)); [|lia].
  destruct (Z.ltb_spec (byteOffset v + next) (byteOffset v + byteLength v)); [|lia].
  reflexivity.
Qed.

Lemma alpha_at_done (v : U8View) (next k : Z) :
  byteLength v <= next -> alpha_at v next k = false.
Proof.
  intros H. unfold alpha_at.
  destruct (Z.leb_spec (byteOffset v + next) k); [|reflexivity].
  destruct (Z.ltb_spec k (byteOffset v + byteLength v)); [lia|reflexivity].
Qed.

(** The loop of [screenshot()], element by element: the bytes it stores
    255 into are those of [alpha_at]; every other byte is unchanged. *)
Lemma alpha_loop_spec (fuel : nat) (v : U8View) (next : Z) (heap : list Z) :
  0 <= byteOffset v -> 0 <= next ->
  byteOffset v + byteLength v <= Z.of_nat (length heap) ->
  byteLength v <= next + 4 * Z.of_nat fuel ->
  length (alpha_loop fuel v next heap) = length heap /\
  forall k : nat, alpha_loop fuel v next heap !! k =
    if alpha_at v next (Z.of_nat k) then Some 255 else heap !! k.
Proof.
  revert next heap.
  induction fuel as [|f IH]; intros next heap Ho Hn Hlen Hf; simpl.
  - split; [reflexivity|]. intros k. rewrite alpha_at_done by lia. reflexivity.
  - destruct (Z.ltb_spec next (byteLength v)) as [Hlt|Hge].
    + set (heap1 := view_set v next 255 heap).
      assert (E1 : heap1 = <[Z.to_nat (byteOffset v + next) := 255]> heap).
      { unfold heap1, view_set.
        destruct (Z.leb_spec 0 next); [|lia].
        destruct (Z.ltb_spec next (byteLength v)); [|lia]. reflexivity. }
      assert (L1 : length heap1 = length heap) by (rewrite E1; apply length_insert).
      destruct (IH (next + 4) heap1) as [IHl IHk]; [lia|lia|lia|lia|].
      split; [congruence|].
      intros k. rewrite IHk, E1.
      destruct (decide (Z.of_nat k = byteOffset v + next)) as [Ek|Nk].
      * rewrite Ek, alpha_at_start by lia.
        assert (k = Z.to_nat (byteOffset v + next)) as -> by lia.
        destruct (alpha_at v (next + 4) _); [reflexivity|].
        apply list_lookup_insert_eq. lia.
      * rewrite alpha_at_step by exact Nk.
        destruct (alpha_at v next (Z.of_nat k)); [reflexivity|].
        apply list_lookup_insert_ne. lia.
    + split; [reflexivity|]. intros k. rewrite alpha_at_done by lia. reflexivity.
Qed.

(** [screenshot()] succeeds on a frame that lies in the module's memory,
    with the image over the frame's bytes. *)
Lemma new_view_fits (heap : list Z) (off len : Z) :
  0 <= off -> 0 <= len -> off + len <= Z.of_nat (length heap) ->
  new_view heap off len = Some (mkView off len).
Proof.
  intros H1 H2 H3. unfold new_view.
  destruct (Z.leb_spec 0 off); [|lia].
  destruct (Z.leb_spec 0 len); [|lia].
  destruct (Z.leb_spec (off + len) (Z.of_nat (length heap))); [reflexivity|lia].
Qed.

Lemma new_view_Some (heap : list Z) (off len : Z) (v : U8View) :
  new_view heap off len = Some v ->
  v = mkView off len /\ 0 <= off /\ 0 <= len /\ off + len <= Z.of_nat (length heap).
Proof.
  unfold new_view.
  destruct (Z.leb_spec 0 off); [|discriminate].
  destruct (Z.leb_spec 0 len); [|discriminate].
  destruct (Z.leb_spec (off + len) (Z.of_nat (length heap))); [|discriminate].
  intros [= <-]. auto.
Qed.

Lemma new_image_fits (v : U8View) (w h : Z) :
  1 <= w -> 1 <= h -> byteLength v = w * h * 4 ->
  new_image v w h = Some (mkImageData v w h).
Proof.
  intros Hw Hh Hl. unfold new_image. rewrite Hl, Z.eqb_refl.
  destruct (Z.ltb_spec 0 w); [|lia].
  destruct (Z.ltb_spec 0 h); [reflexivity|lia].
Qed.

Lemma new_image_Some (v : U8View) (w h : Z) (img : ImageData) :
  new_image v w h = Some img -> img = mkImageData v w h.
Proof.
  unfold new_image. destruct (_ && _ && _); [|discriminate]. by intros [= <-].
Qed.

(** [screenshot()] succeeds on a frame that lies in the module's memory,
    with the image over the frame's bytes. *)
Lemma screenshot_unfold (m : ModuleMem) :
  1 <= frame_width m -> 1 <= frame_height m -> 0 <= frame_rgba m ->
  frame_rgba m + frame_width m * frame_height m * 4 <= Z.of_nat (length (heapu8 m)) ->
  screenshot m =
    (Some (mkImageData (mkView (frame_rgba m) (frame_width m * frame_height m * 4))
                       (frame_width m) (frame_height m)),
          alpha_loop (Z.to_nat (frame_width m * frame_height m * 4))
            (mkView (frame_rgba m) (frame_width m * frame_height m * 4)) 3 (heapu8 m)).
Proof.
  intros Hw Hh Hp Hl. unfold screenshot.
  rewrite new_view_fits by lia. cbn [byteLength].
  rewrite new_image_fits by (cbn [byteLength]; lia). reflexivity.
Qed.

(** The returned image reads the module memory through its view: a byte
    the module stores into the frame afterwards is what the image shows. *)
Lemma screenshot_view_aliased (m : ModuleMem) (img : ImageData) (heap' : list Z) (a x : Z) :
  screenshot m = (Some img, heap') ->
  frame_rgba m <= a < frame_rgba m + frame_width m * frame_height m * 4 ->
  image_bytes (mem_write a x heap') img !! Z.to_nat (a - frame_rgba m) = Some x.
Proof.
  unfold screenshot.
  destruct (new_view (heapu8 m) (frame_rgba m) (frame_width m * frame_height m * 4))
    as [v|] eqn:Ev; [|discriminate].
  apply new_view_Some in Ev as (-> & Hp & HL & Hl).
  cbn [byteLength].
  destruct (new_image _ _ _) as [img0|] eqn:Ei; [|discriminate].
  apply new_image_Some in Ei as ->.
  intros [= <- <-] Ha.
  destruct (alpha_loop_spec (Z.to_nat (frame_width m * frame_height m * 4))
              (mkView (frame_rgba m) (frame_width m * frame_height m * 4)) 3 (heapu8 m))
    as [Hlen _]; cbn [byteOffset byteLength]; [lia|lia|lia|lia|].
  unfold image_bytes, view_bytes, mem_write. cbn [data byteOffset byteLength].
  rewrite lookup_take_lt by lia. rewrite lookup_drop.
  replace (Z.to_nat (frame_rgba m) + Z.to_nat (a - frame_rgba m))%nat with (Z.to_nat a) by lia.
  apply list_lookup_insert_eq. lia.
Qed.

(** C8: for every frame of at least 1x1 pixels lying in the module's
    memory, whatever the bytes of the frame buffer, [screenshot()] returns
    an image of [width * height * 4] bytes whose alpha byte (offset
    [4 * i + 3]) is 255 for every pixel [i]; its colour bytes are the
    buffer's. *)
Theorem screenshot_alpha_opaque (m : ModuleMem) :
  1 <= frame_width m -> 1 <= frame_height m -> 0 <= frame_rgba m ->
  frame_rgba m + frame_width m * frame_height m * 4 <= Z.of_nat (length (heapu8 m)) ->
  exists img heap',
    screenshot m = (Some img, heap') /\
    Z.of_nat (length (image_bytes heap' img)) = frame_width m * frame_height m * 4 /\
    (forall i, 0 <= i < frame_width m * frame_height m ->
       image_bytes heap' img !! Z.to_nat (4 * i + 3) = Some 255) /\
    (forall j, 0 <= j < frame_width m * frame_height m * 4 -> j mod 4 <> 3 ->
       image_bytes heap' img !! Z.to_nat j = heapu8 m !! Z.to_nat (frame_rgba m + j)).
Proof.
  intros Hw Hh Hp Hl.
  rewrite (screenshot_unfold m Hw Hh Hp Hl).
  set (L := frame_width m * frame_height m * 4).
  set (v := mkView (frame_rgba m) L).
  assert (HL : 4 <= L) by (unfold L; nia).
  destruct (alpha_loop_spec (Z.to_nat L) v 3 (heapu8 m)) as [Hlen Hk];
    cbn [v byteOffset byteLength]; [lia|lia|lia|lia|].
  do 2 eexists. split; [reflexivity|].
  unfold image_bytes, view_bytes. cbn [data byteOffset byteLength v].
  split; [|split].
  - rewrite length_take, length_drop, Hlen. lia.
  - intros i Hi.
    rewrite lookup_take_lt by lia. rewrite lookup_drop, Hk.
    replace (alpha_at v 3 _) with true; [reflexivity|].
    symmetry. unfold alpha_at. cbn [v byteOffset byteLength].
    rewrite Nat2Z.inj_add, !Z2Nat.id by lia.
    replace (frame_rgba m + (4 * i + 3) - frame_rgba m - 3) with (i * 4) by lia.
    rewrite Z.mod_mul by lia.
    destruct (Z.leb_spec (frame_rgba m + 3) (frame_rgba m + (4 * i + 3))); [|lia].
    destruct (Z.ltb_spec (frame_rgba m + (4 * i + 3)) (frame_rgba m + L)); [reflexivity|].
    unfold L in *. nia.
  - intros j Hj Hm.
    rewrite lookup_take_lt by lia. rewrite lookup_drop, Hk.
    replace (alpha_at v 3 _) with false.
    + f_equal. lia.
    + symmetry. unfold alpha_at. cbn [v byteOffset byteLength].
      rewrite Nat2Z.inj_add, !Z2Nat.id by lia.
      destruct (Z.leb_spec (frame_rgba m + 3) (frame_rgba m + j)); [|reflexivity].
      destruct (Z.ltb_spec (frame_rgba m + j) (frame_rgba m + L)); [|reflexivity].
      destruct (Z.eqb_spec ((frame_rgba m + j - frame_rgba m - 3) mod 4) 0); [|reflexivity].
      exfalso. apply Hm. Z.div_mod_to_equations. lia.
Qed.

Lemma screenshot_alpha_opaque_witness :
  (1 <= 2 /\ 1 <= 1 /\ 0 <= 2 /\ 2 + 2 * 1 * 4 <= Z.of_nat (length [0; 0; 1; 2; 3; 4; 5; 6; 7; 8])) /\
  exists img heap',
    screenshot (mkMem 2 1 2 [0; 0; 1; 2; 3; 4; 5; 6; 7; 8]) = (Some img, heap') /\
    Z.of_nat (length (image_bytes heap' img)) = 2 * 1 * 4 /\
    (forall i, 0 <= i < 2 * 1 ->
       image_bytes heap' img !! Z.to_nat (4 * i + 3) = Some 255) /\
    (forall j, 0 <= j < 2 * 1 * 4 -> j mod 4 <> 3 ->
       image_bytes heap' img !! Z.to_nat j = [0; 0; 1; 2; 3; 4; 5; 6; 7; 8] !! Z.to_nat (2 + j)).
Proof.
  split; [vm_compute; repeat split; discriminate|].
  apply (screenshot_alpha_opaque (mkMem 2 1 2 [0; 0; 1; 2; 3; 4; 5; 6; 7; 8]));
    vm_compute; discriminate.
Defined.

(** C7: [screenshot()] is not a copy. On a 1x1 frame at address 0 whose
    bytes are [10; 20; 30; 0], it stores 255 into the module's own memory
    (byte 3), and the returned image is a view of that memory: after the
    module writes 99 at address 0 (its next frame), the image reads
    [99; 20; 30; 255] instead of the [10; 20; 30; 255] it showed when
    returned. *)
Theorem screenshot_is_view_not_copy :
  exists img heap',
    screenshot (mkMem 1 1 0 [10; 20; 30; 0]) = (Some img, heap') /\
    heap' = [10; 20; 30; 255] /\
    heap' <> heapu8 (mkMem 1 1 0 [10; 20; 30; 0]) /\
    image_bytes heap' img = [10; 20; 30; 255] /\
    image_bytes (mem_write 0 99 heap') img = [99; 20; 30; 255].
Proof.
  do 2 eexists. split; [vm_compute; reflexivity|].
  split; [reflexivity|]. split; [discriminate|].
  split; vm_compute; reflexivity.
Qed.

End ScreenProofs.

Module KeysExtraProofs.
Import Keys KeyHistory KeysProofs.
Local Open Scope Z_scope.

Lemma key_flags_app k l1 l2 : key_flags k (l1 ++ l2) = key_flags k l1 ++ key_flags k l2.
Proof.
  induction l1 as [|c l1 IH]; simpl; [done|].
  destruct c as [k' p t| |]; rewrite ?IH; try done.
  by destruct (k' =? k).
Qed.

Lemma last_snoc {A} (l : list A) (x d : A) : List.last (l ++ [x]) d = x.
Proof.
  induction l as [|y l IH]; [done|]. simpl. destruct (l ++ [x]) eqn:E; [|exact IH].
  by destruct l.
Qed.

Lemma last_cons_ne {A} (y : A) (l : list A) d : l <> [] -> List.last (y :: l) d = List.last l d.
Proof. destruct l; [done|]. reflexivity. Qed.

Lemma last_default {A} (l : list A) d d' : l <> [] -> List.last l d = List.last l d'.
Proof.
  induction l as [|y l IH]; [done|]. intros _.
  destruct l as [|z l]; [done|]. rewrite !(last_cons_ne y); [|done|done]. by apply IH.
Qed.

Lemma alternating_snoc l : forall b x,
  alternating b l = true -> List.last l (negb b) <> x -> alternating b (l ++ [x]) = true.
Proof.
  induction l as [|y l IH]; intros b x Ha Hx; simpl in *.
  - destruct b, x; simpl in *; congruence.
  - apply andb_prop in Ha as [Hy Hr]. apply Bool.eqb_prop in Hy as ->.
    rewrite Bool.eqb_reflx. simpl.
    destruct l as [|z l].
    + simpl. destruct b, x; simpl in *; congruence.
    + apply IH; [exact Hr|]. rewrite negb_involutive.
      simpl in Hx.
      by rewrite (last_default _ b (negb b)) by done.
Qed.

Lemma is_pressed_addKey k p t ci j :
  is_pressed (keyMatrix (addKey k p t ci)) j =
  if j =? k then p else is_pressed (keyMatrix ci) j.
Proof.
  unfold addKey. destruct (Bool.eqb (is_pressed (keyMatrix ci) k) p) eqn:E; simpl.
  - apply Bool.eqb_prop in E. destruct (Z.eqb_spec j k); congruence.
  - rewrite is_pressed_insert. reflexivity.
Qed.

Lemma key_inv_addKey k p t ci : key_inv ci -> key_inv (addKey k p t ci).
Proof.
  intros H j. unfold addKey.
  destruct (Bool.eqb (is_pressed (keyMatrix ci) k) p) eqn:E; [apply H|].
  simpl. rewrite is_pressed_insert. unfold record, last_flag. rewrite !key_flags_app. simpl.
  destruct (H j) as [Hm Ha].
  destruct (Z.eqb_spec j k) as [->|Hne].
  - rewrite Z.eqb_refl, last_snoc. split; [done|].
    apply alternating_snoc; [done|]. simpl.
    unfold last_flag in Hm. rewrite <- Hm. intros Hp. rewrite Hp, Bool.eqb_reflx in E.
    discriminate.
  - destruct (Z.eqb_spec k j); [congruence|]. rewrite app_nil_r. split; [exact Hm|exact Ha].
Qed.

Lemma key_inv_fold ks p t : forall ci,
  key_inv ci -> key_inv (fold_left (fun c k => addKey k p t c) ks ci).
Proof.
  induction ks as [|k ks IH]; intros ci H; simpl; [done|]. apply IH, key_inv_addKey, H.
Qed.

Lemma key_inv_other ci c :
  key_inv ci -> (forall k, key_flags k [c] = []) ->
  key_inv (mkKeyCI (startedAt ci) (keyMatrix ci) (sent ci ++ [c])).
Proof.
  intros H Hc j. simpl. unfold last_flag. rewrite key_flags_app, Hc, app_nil_r. apply H.
Qed.

Lemma key_inv_host_step now cmd ci : key_inv ci -> key_inv (host_step now cmd ci).
Proof.
  intros H. destruct cmd as [k p|ks|x y|b p]; simpl.
  - by apply key_inv_addKey.
  - unfold simulateKeyPress. by apply key_inv_fold, key_inv_fold.
  - by apply key_inv_other.
  - by apply key_inv_other.
Qed.

Lemma key_inv_run cmds : forall ci, key_inv ci -> key_inv (run_host cmds ci).
Proof.
  induction cmds as [|[n c] cmds IH]; intros ci H; simpl; [done|].
  by apply IH, key_inv_host_step.
Qed.

Lemma key_inv_fresh t0 : key_inv (fresh t0).
Proof. intros k. split; reflexivity. Qed.

Lemma fold_addKey_matrix ks p t j : forall ci,
  is_pressed (keyMatrix (fold_left (fun c k => addKey k p t c) ks ci)) j =
  if existsb (Z.eqb j) ks then p else is_pressed (keyMatrix ci) j.
Proof.
  induction ks as [|k ks IH]; intros ci; simpl; [done|].
  rewrite IH, is_pressed_addKey. by destruct (j =? k), (existsb (Z.eqb j) ks).
Qed.

Lemma fold_addKey_all ks p t : forall ci,
  NoDup ks -> Forall (fun k => is_pressed (keyMatrix ci) k = negb p) ks ->
  startedAt (fold_left (fun c k => addKey k p t c) ks ci) = startedAt ci /\
  sent (fold_left (fun c k => addKey k p t c) ks ci)
    = sent ci ++ map (fun k => AddKey k p t) ks.
Proof.
  induction ks as [|k ks IH]; intros ci Hnd Hall; simpl.
  - by rewrite app_nil_r.
  - apply NoDup_cons in Hnd as [Hk Hnd]. apply Forall_cons in Hall as [Hk0 Hall].
    assert (E : addKey k p t ci =
                mkKeyCI (startedAt ci) (<[k:=p]> (keyMatrix ci)) (sent ci ++ [AddKey k p t])).
    { unfold addKey. rewrite Hk0. by destruct p. }
    rewrite E. destruct (IH (mkKeyCI (startedAt ci) (<[k:=p]> (keyMatrix ci)) (sent ci ++ [AddKey k p t])) Hnd) as [H1 H2].
    + apply List.Forall_forall. intros j Hj. simpl. rewrite is_pressed_insert. unfold record.
      destruct (Z.eqb_spec j k) as [->|]; [|by eapply List.Forall_forall in Hall].
      exfalso. apply Hk. by apply list_elem_of_In.
    + simpl in H1, H2. rewrite H1, H2, <- app_assoc. simpl. auto.
Qed.

(** X1: After any sequence of input calls on a fresh interface, the key matrix
    holds for every key code exactly the last pressed state forwarded to
    the module through [_addKey] (released when none was forwarded). *)
Theorem key_matrix_mirrors_module (t0 : Z) (cmds : list (Z * HostCmd)) (k : Z) :
  is_pressed (keyMatrix (run_host cmds (fresh t0))) k
    = last_flag k (sent (run_host cmds (fresh t0))).
Proof. apply (key_inv_run cmds (fresh t0) (key_inv_fresh t0) k). Qed.

(** X2: After any sequence of input calls on a fresh interface, the [_addKey]
    calls the module receives for one key code alternate between press and
    release, starting with a press: the module never sees the same key
    pressed twice, or released twice, in a row. *)
Theorem addKey_press_release_alternate (t0 : Z) (cmds : list (Z * HostCmd)) (k : Z) :
  alternating true (key_flags k (sent (run_host cmds (fresh t0)))) = true.
Proof. apply (key_inv_run cmds (fresh t0) (key_inv_fresh t0) k). Qed.

(** X3: [simulateKeyPress(...codes)] leaves every listed key released in the
    key matrix, including a key that was held down before the call, and
    leaves the state of every other key as it was. *)
Theorem simulateKeyPress_matrix (now : Z) (ks : list Z) (ci : KeyCI) (j : Z) :
  is_pressed (keyMatrix (simulateKeyPress now ks ci)) j
    = if existsb (Z.eqb j) ks then false else is_pressed (keyMatrix ci) j.
Proof.
  unfold simulateKeyPress. rewrite !fold_addKey_matrix.
  by destruct (existsb (Z.eqb j) ks).
Qed.

(** X4: When the listed codes are distinct and all released,
    [simulateKeyPress(...codes)] forwards one press per code, in order,
    at [t = now - startedAt], then one release per code, in order, at
    [t + 16]. *)
Theorem simulateKeyPress_sends_all (now : Z) (ks : list Z) (ci : KeyCI) :
  NoDup ks -> Forall (fun k => is_pressed (keyMatrix ci) k = false) ks ->
  sent (simulateKeyPress now ks ci)
    = sent ci ++ map (fun k => AddKey k true (now - startedAt ci)) ks
              ++ map (fun k => AddKey k false (now - startedAt ci + 16)) ks.
Proof.
  intros Hnd Hall. unfold simulateKeyPress.
  destruct (fold_addKey_all ks true (now - startedAt ci) ci Hnd Hall) as [_ H1].
  destruct (fold_addKey_all ks false (now - startedAt ci + 16)
              (fold_left (fun c k => addKey k true (now - startedAt ci) c) ks ci) Hnd)
    as [_ H2].
  - apply List.Forall_forall. intros j Hj. rewrite fold_addKey_matrix.
    replace (existsb (Z.eqb j) ks) with true; [done|].
    symmetry. apply existsb_exists. exists j. split; [done|]. apply Z.eqb_refl.
  - by rewrite H2, H1, app_assoc.
Qed.

Lemma simulateKeyPress_sends_all_witness :
  (NoDup [37; 38] /\
   Forall (fun k => is_pressed (keyMatrix (fresh 100)) k = false) [37; 38]) /\
  sent (simulateKeyPress 150 [37; 38] (fresh 100))
    = sent (fresh 100) ++ map (fun k => AddKey k true (150 - startedAt (fresh 100))) [37; 38]
        ++ map (fun k => AddKey k false (150 - startedAt (fresh 100) + 16)) [37; 38].
Proof.
  assert (Hn : NoDup [37; 38]) by (repeat constructor; set_solver).
  assert (Hf : Forall (fun k => is_pressed (keyMatrix (fresh 100)) k = false) [37; 38])
    by (repeat constructor).
  split; [split; assumption|].
  exact (simulateKeyPress_sends_all 150 [37; 38] (fresh 100) Hn Hf).
Defined.

End KeysExtraProofs.

Module LifecycleExtraProofs.
Import Lifecycle Traces LifecycleProofs.

(** ** The Exit event fires at most once *)

Lemma count_obs_single f o : count_obs f [o] = if f o then 1%nat else 0%nat.
Proof. unfold count_obs. simpl. by destruct (f o). Qed.

Lemma count_ev_zero l : ~ In EvExit l -> count_obs is_ev_exit l = 0%nat.
Proof.
  intros Hn. apply count_obs_none, List.Forall_forall. intros o Ho.
  destruct o; try done; contradiction.
Qed.

Lemma sync_step_ev w w' : sync_step w w' ->
  reactions w' = reactions w /\
  count_obs is_ev_exit (trace w') = count_obs is_ev_exit (trace w).
Proof.
  intros (_ & _ & _ & _ & Hr & _ & _ & _ & l & Ht & Hf). split; [done|].
  rewrite Ht, count_obs_app, (count_obs_none _ l); [lia|].
  eapply Forall_impl; [exact Hf|]. intros o [Ho _]. by destruct o.
Qed.

Lemma settle_thrown_ev h th w :
  reactions (settle_thrown h th w) = reactions w /\
  count_obs is_ev_exit (trace (settle_thrown h th w)) = count_obs is_ev_exit (trace w).
Proof.
  destruct (settle_thrown_fields h th w) as (_&_&_&_&_&_&_&R).
  destruct (settle_thrown_trace h th w) as (k & Tk & Hk).
  split; [done|]. rewrite Tk, count_obs_app, (count_obs_none _ k); [lia|].
  apply List.Forall_forall. intros o Ho. by destruct (Hk o Ho) as [e ->].
Qed.

Lemma persist_ev mb w :
  reactions (fst (persist mb w)) = reactions w /\
  count_obs is_ev_exit (trace (fst (persist mb w))) = count_obs is_ev_exit (trace w).
Proof.
  rewrite persist_unfold. destruct (persistPromise w); [done|]. cbv zeta. cbn [fst].
  set (w2 := emit ReqPackFsToBundle (set_slot_persist (Some (next_id w)) (snd (alloc w)))).
  destruct (sync_step_ev _ _ (run_sync_sync (on_packFsToBundle mb) w2)) as [R1 C1].
  destruct (settle_thrown_ev (next_id w) (snd (run_sync (on_packFsToBundle mb) w2))
              (fst (run_sync (on_packFsToBundle mb) w2))) as [R2 C2].
  unfold set_persistPromise. cbn [reactions trace]. rewrite R2, C2, R1, C1.
  unfold w2. wsimpl. rewrite count_obs_app, count_obs_single. simpl. split; [done|lia].
Qed.

Lemma exit_ev mb w : Inv w ->
  (count_obs is_ev_exit (trace w) + length (reactions w) <= 1)%nat ->
  (count_obs is_ev_exit (trace (fst (exit mb w))) + length (reactions (fst (exit mb w))) <= 1)%nat.
Proof.
  intros HI HJ. rewrite exit_unfold. destruct (exitPromise w) eqn:E; [done|]. cbv zeta.
  pose proof (inv_exit _ HI) as X. rewrite E in X. destruct X as (_ & Hr & Hn).
  set (w2 := emit ReqRequestExit (set_slot_exit (Some (next_id w)) (snd (alloc w)))).
  destruct (sync_step_ev _ _ (run_sync_sync (on_requestExit mb) w2)) as [R1 C1].
  destruct (settle_thrown_ev (next_id w) (snd (run_sync (on_requestExit mb) w2))
              (fst (run_sync (on_requestExit mb) w2))) as [R2 C2].
  unfold set_exitPromise, set_reactions, alloc. cbn [fst snd reactions trace].
  rewrite R2, C2, R1, C1. unfold w2. wsimpl.
  rewrite count_obs_app, count_obs_single, count_ev_zero by done. rewrite Hr. simpl. lia.
Qed.

Lemma run_reaction_ev r w w' : run_reaction r w = Some w' ->
  reactions w' = reactions w /\
  (count_obs is_ev_exit (trace w') <= count_obs is_ev_exit (trace w) + 1)%nat.
Proof.
  destruct r as [src dst]; simpl.
  destruct (store w !! src) as [[|v|e]|]; try discriminate; intros [= <-].
  - destruct (settle_fields dst (Fulfilled VUndefined) (emit EvExit w)) as (_&_&_&_&_&_&_&R).
    rewrite R. split; [done|].
    destruct (settle_trace dst (Fulfilled VUndefined) (emit EvExit w)) as [T|T]; rewrite T;
      unfold emit; cbn [trace]; rewrite ?count_obs_app, ?count_obs_single; simpl; lia.
  - destruct (settle_fields dst (Rejected e) w) as (_&_&_&_&_&_&_&R).
    rewrite R. split; [done|].
    destruct (settle_trace dst (Rejected e) w) as [T|T]; rewrite T;
      rewrite ?count_obs_app, ?count_obs_single; simpl; lia.
Qed.

Lemma drain_list_ev rs : forall w,
  (count_obs is_ev_exit (trace (drain_list rs w)) + length (reactions (drain_list rs w))
   <= count_obs is_ev_exit (trace w) + length (reactions w) + length rs)%nat.
Proof.
  induction rs as [|r rs IH]; intros w; simpl; [lia|].
  destruct (run_reaction r w) as [w'|] eqn:E.
  - destruct (run_reaction_ev r w w' E) as [R C]. specialize (IH w'). rewrite R in IH. lia.
  - specialize (IH (set_reactions (reactions w ++ [r]) w)).
    assert (T : trace (set_reactions (reactions w ++ [r]) w) = trace w) by reflexivity.
    assert (R : reactions (set_reactions (reactions w ++ [r]) w) = reactions w ++ [r])
      by reflexivity.
    rewrite T, R, length_app in IH. simpl in IH. lia.
Qed.

Lemma drain_ev w :
  (count_obs is_ev_exit (trace (drain w)) + length (reactions (drain w))
   <= count_obs is_ev_exit (trace w) + length (reactions w))%nat.
Proof.
  unfold drain. pose proof (drain_list_ev (reactions w) (set_reactions [] w)) as H.
  assert (T : trace (set_reactions [] w) = trace w) by reflexivity.
  assert (R : reactions (set_reactions [] w) = []) by reflexivity.
  rewrite T, R in H. simpl in H. lia.
Qed.

Lemma step_ev mb t w : Inv w ->
  (count_obs is_ev_exit (trace w) + length (reactions w) <= 1)%nat ->
  (count_obs is_ev_exit (trace (step mb t w)) + length (reactions (step mb t w)) <= 1)%nat.
Proof.
  intros HI HJ. unfold step.
  destruct t as [| |acts].
  - pose proof (drain_ev (fst (persist mb w))) as H. destruct (persist_ev mb w) as [R C].
    rewrite R, C in H. lia.
  - pose proof (drain_ev (fst (exit mb w))). pose proof (exit_ev mb w HI HJ). lia.
  - pose proof (drain_ev (fst (run_sync acts w))) as H.
    destruct (sync_step_ev _ _ (run_sync_sync acts w)) as [R C]. rewrite R, C in H. lia.
Qed.

Lemma run_ev mb ts : forall w, Inv w ->
  (count_obs is_ev_exit (trace w) + length (reactions w) <= 1)%nat ->
  (count_obs is_ev_exit (trace (run mb ts w)) + length (reactions (run mb ts w)) <= 1)%nat.
Proof.
  induction ts as [|t ts IH]; intros w HI HJ; simpl; [done|].
  apply IH; [by apply Inv_step|by apply step_ev].
Qed.

(** X5: Whatever the module does and whatever the callers request, the Exit
    event is fired on the Event Bus at most once over the life of an
    interface: [exit()] queues its [.then] reaction once, and the reaction
    runs once. *)
Theorem exit_event_at_most_once mb ts :
  (count_obs is_ev_exit (trace (run mb ts init_world)) <= 1)%nat.
Proof.
  pose proof (run_ev mb ts init_world Inv_init ltac:(vm_compute; lia)). lia.
Qed.

(** ** The persist callback removes itself *)

Lemma P_same w w' : persist_slot_ok w ->
  store w' = store w -> next_id w' = next_id w ->
  slot_persist w' = slot_persist w -> slot_exit w' = slot_exit w ->
  persist_slot_ok w'.
Proof. intros [H1 H2] S N P E. split; intros h; rewrite ?S, ?N, ?P, ?E; auto. Qed.

Lemma P_settle_rejected h e w : persist_slot_ok w -> persist_slot_ok (settle h (Rejected e) w).
Proof.
  intros [H1 H2]. destruct (settle_fields h (Rejected e) w) as (N & _ & _ & SP & SE & _).
  split; intros h'; rewrite ?SP, ?SE, ?N; [|apply H2].
  intros Hs. destruct (H1 h' Hs) as (B & X & St). split; [assumption|]. split; [assumption|].
  destruct (decide (h' = h)) as [->|Hne].
  - rewrite settle_store_eq. case_decide; [right; eauto|exact St].
  - rewrite settle_store_ne by done. exact St.
Qed.

Lemma P_settle_thrown h th w : persist_slot_ok w -> persist_slot_ok (settle_thrown h th w).
Proof. destruct th; simpl; [apply P_settle_rejected|done]. Qed.

Lemma P_mod_act a w : persist_slot_ok w -> persist_slot_ok (fst (mod_act a w)).
Proof.
  intros HP. pose proof HP as [H1 H2].
  destruct a as [archive| |args|args|args|e]; simpl.
  - destruct (slot_persist w) as [h|] eqn:Hs; simpl; [|done].
    destruct (settle_fields h (Fulfilled (VArchive archive)) (emit CbPersist w))
      as (N & _ & _ & _ & SE & _).
    split; intros h'; unfold set_slot_persist; cbn [slot_persist slot_exit next_id];
      [discriminate|].
    rewrite SE, N. apply H2.
  - destruct (slot_exit w) as [h0|] eqn:Hs; simpl; [|done].
    destruct (settle_fields h0 (Fulfilled VUndefined) (emit CbExit w))
      as (N & _ & _ & SP & SE & _).
    split; intros h'; rewrite ?SP, ?SE, ?N; cbn [slot_persist slot_exit next_id emit].
    + intros Hsp. destruct (H1 h' Hsp) as (B & X & St). split; [assumption|]. split; [by rewrite Hs|].
      rewrite settle_store_ne; [exact St|]. intros ->. congruence.
    + rewrite Hs. apply H2.
  - by apply (P_same w).
  - by apply (P_same w).
  - unfold call_err. destruct (err_sink w); by apply (P_same w).
  - done.
Qed.

Lemma P_run_sync acts : forall w, persist_slot_ok w -> persist_slot_ok (fst (run_sync acts w)).
Proof.
  induction acts as [|a acts IH]; intros w HP; simpl; [done|].
  pose proof (P_mod_act a w HP) as Ha.
  destruct (mod_act a w) as [w1 [e|]]; simpl in *; [done|]. by apply IH.
Qed.

Lemma P_persist mb w : persist_slot_ok w -> persist_slot_ok (fst (persist mb w)).
Proof.
  intros HP. rewrite persist_unfold. destruct (persistPromise w); [done|]. cbv zeta. cbn [fst].
  eapply P_same; [apply P_settle_thrown, P_run_sync|reflexivity..].
  destruct HP as [H1 H2]. unfold alloc. wsimpl.
  split; intros h'; wproj.
  - intros [= <-]. split; [lia|]. split.
    + intros Hse. specialize (H2 _ Hse). lia.
    + left. apply lookup_insert_eq.
  - intros Hse. specialize (H2 _ Hse). lia.
Qed.

Lemma P_exit mb w : persist_slot_ok w -> persist_slot_ok (fst (exit mb w)).
Proof.
  intros HP. rewrite exit_unfold. destruct (exitPromise w); [done|]. cbv zeta. cbn [fst].
  set (w2 := emit ReqRequestExit (set_slot_exit (Some (next_id w)) (snd (alloc w)))).
  assert (P2 : persist_slot_ok w2).
  { destruct HP as [H1 H2]. unfold w2, alloc. wsimpl. split; intros h'; wproj.
    - intros Hsp. destruct (H1 _ Hsp) as (B & X & St). split; [lia|]. split.
      + intros [= <-]. lia.
      + rewrite lookup_insert_ne by lia. exact St.
    - intros [= <-]. lia. }
  pose proof (P_settle_thrown (next_id w) (snd (run_sync (on_requestExit mb) w2))
                _ (P_run_sync (on_requestExit mb) w2 P2)) as [H1 H2].
  unfold set_exitPromise, set_reactions, alloc. cbn [snd]. wproj.
  split; intros h'; wproj.
  - intros Hsp. destruct (H1 _ Hsp) as (B & X & St). split; [lia|]. split; [done|].
    rewrite lookup_insert_ne by lia. exact St.
  - intros Hse. specialize (H2 _ Hse). lia.
Qed.

Lemma P_drain w : Inv w -> persist_slot_ok w -> persist_slot_ok (drain w).
Proof.
  intros HI HP. pose proof (inv_exit _ HI) as X.
  destruct (exitPromise w) as [h1|] eqn:E.
  - destruct X as (h0 & Hse & Hne & _ & _ & _ & Hp1 & [Hr|[Hr _]] & _).
    + by rewrite drain_nil.
    + rewrite (drain_one w _ Hr). cbn [run_reaction].
      change (store (set_reactions [] w)) with (store w).
      destruct (store w !! h0) as [[|v|e]|]; try done.
      * destruct (settle_fields h1 (Fulfilled VUndefined) (emit EvExit (set_reactions [] w)))
          as (N & _ & _ & SP & SE & _).
        split; intros h'; rewrite ?SP, ?SE, ?N; cbn [slot_persist slot_exit next_id emit set_reactions].
        -- intros Hsp. destruct (proj1 HP h' Hsp) as (B & X & St). split; [assumption|]. split; [assumption|].
           rewrite settle_store_ne; [exact St|]. intros ->.
           apply Hp1. exact (Inv_slot_persist w h1 HI Hsp).
        -- apply (proj2 HP).
      * apply P_settle_rejected. by apply (P_same w).
  - destruct X as (_ & Hr & _). by rewrite drain_nil.
Qed.

Lemma P_step mb t w : Inv w -> persist_slot_ok w -> persist_slot_ok (step mb t w).
Proof.
  intros HI HP. unfold step. destruct t as [| |acts]; apply P_drain.
  - by apply Inv_persist.
  - by apply P_persist.
  - by apply Inv_exit.
  - by apply P_exit.
  - by apply Inv_run_sync.
  - by apply P_run_sync.
Qed.

Lemma P_run mb ts : forall w, Inv w -> persist_slot_ok w -> persist_slot_ok (run mb ts w).
Proof.
  induction ts as [|t ts IH]; intros w HI HP; simpl; [done|].
  apply IH; [by apply Inv_step|by apply P_step].
Qed.

Lemma P_init : persist_slot_ok init_world.
Proof. split; intros h; discriminate. Qed.

(** X6: Once the [persist()] future is fulfilled, [module.persist] is gone (the
    callback deletes itself): a later call to it by the module is a call
    of [undefined], which throws a TypeError and changes nothing, and the
    future keeps the archive of the first call for good. *)
Theorem persist_callback_removed mb ts h v :
  let w := run mb ts init_world in
  persistPromise w = Some h -> store w !! h = Some (Fulfilled v) ->
  slot_persist w = None /\
  (forall a, mod_act (MPersist a) w = (w, Some not_a_function)) /\
  (forall ts2, store (run mb ts2 w) !! h = Some (Fulfilled v)).
Proof.
  cbv zeta. intros Hp Hs. set (w := run mb ts init_world) in *.
  assert (HI : Inv w) by apply Inv_run, Inv_init.
  assert (HP : persist_slot_ok w) by (apply P_run; [apply Inv_init|apply P_init]).
  assert (Hn : slot_persist w = None).
  { pose proof (inv_persist _ HI) as X. rewrite Hp in X. destruct X as [_ [X|X]]; [done|].
    destruct (proj1 HP h X) as (_ & _ & [St|[e St]]); congruence. }
  split; [done|]. split.
  - intros a. simpl. by rewrite Hn.
  - intros ts2. apply (run_stable mb ts2 w HI); [done|discriminate].
Qed.

Lemma persist_callback_removed_witness :
  (persistPromise (run (mkModuleBeh [MPersist [1; 2]%Z] []) [HostPersist] init_world) = Some 0%nat /\
   store (run (mkModuleBeh [MPersist [1; 2]%Z] []) [HostPersist] init_world) !! 0%nat
     = Some (Fulfilled (VArchive [1; 2]%Z))) /\
  slot_persist (run (mkModuleBeh [MPersist [1; 2]%Z] []) [HostPersist] init_world) = None.
Proof.
  assert (H1 : persistPromise (run (mkModuleBeh [MPersist [1; 2]%Z] []) [HostPersist] init_world)
               = Some 0%nat) by (vm_compute; reflexivity).
  assert (H2 : store (run (mkModuleBeh [MPersist [1; 2]%Z] []) [HostPersist] init_world) !! 0%nat
               = Some (Fulfilled (VArchive [1; 2]%Z))) by (vm_compute; reflexivity).
  split; [split; assumption|].
  exact (proj1 (persist_callback_removed (mkModuleBeh [MPersist [1; 2]%Z] []) [HostPersist]
                  0%nat (VArchive [1; 2]%Z) H1 H2)).
Defined.


(** X7: When the module calls [module.exit()] inside [_requestExit] (after
    printing only diagnostics, and whatever it does next, even throwing),
    the task of the first [exit()] ends with the Exit event fired and the
    future it returned fulfilled; later calls return that future. *)
Theorem exit_fulfilled_on_callback mb pre post ts :
  let w0 := run mb ts init_world in
  on_requestExit mb = pre ++ MExit :: post ->
  Forall (fun a => is_diag a = true) pre ->
  exitPromise w0 = None ->
  let w := step mb HostExit w0 in
  exitPromise w = Some (snd (exit mb w0)) /\
  store w !! snd (exit mb w0) = Some (Fulfilled VUndefined) /\
  In EvExit (trace w).
Proof.
  cbv zeta. intros Hr Hd He.
  exact (exit_callback_step mb pre post _ (Inv_run mb ts _ Inv_init) Hr Hd He).
Qed.

Lemma exit_fulfilled_on_callback_witness :
  let mb := mkModuleBeh [] [MLog ["bye"]; MExit; MThrow (JsError "late")] in
  (on_requestExit mb = [MLog ["bye"]] ++ MExit :: [MThrow (JsError "late")] /\
   Forall (fun a => is_diag a = true) [MLog ["bye"]] /\
   exitPromise (run mb [] init_world) = None) /\
  In EvExit (trace (step mb HostExit (run mb [] init_world))).
Proof.
  intros mb.
  assert (H1 : on_requestExit mb = [MLog ["bye"]] ++ MExit :: [MThrow (JsError "late")])
    by reflexivity.
  assert (H2 : Forall (fun a => is_diag a = true) [MLog ["bye"]]) by (repeat constructor).
  assert (H3 : exitPromise (run mb [] init_world) = None) by reflexivity.
  split; [split; [exact H1|split; [exact H2|exact H3]]|].
  exact (proj2 (proj2 (exit_fulfilled_on_callback mb [MLog ["bye"]] [MThrow (JsError "late")] []
                         H1 H2 H3))).
Defined.

End LifecycleExtraProofs.

Module StartupExtraProofs.
Import Lifecycle Startup Traces LifecycleProofs StartupProofs.

Lemma count_newlines_app s1 s2 :
  count_newlines (String.append s1 s2) = (count_newlines s1 + count_newlines s2)%nat.
Proof. induction s1 as [|c s1 IH]; [done|]. rewrite str_app_cons. cbn [count_newlines]. lia. Qed.

(** No escaped character is a line feed: [JSON.stringify] writes it as [\n]. *)
Lemma json_escape_no_newline c : count_newlines (json_escape c) = 0%nat.
Proof. destruct c as [[] [] [] [] [] [] [] []]; vm_compute; reflexivity. Qed.

Lemma json_escape_all_no_newline s : count_newlines (json_escape_all s) = 0%nat.
Proof.
  induction s as [|c s IH]; [done|]. cbn [json_escape_all].
  by rewrite count_newlines_app, json_escape_no_newline, IH.
Qed.

Lemma json_string_no_newline s : count_newlines (json_string s) = 0%nat.
Proof.
  unfold json_string. cbn [count_newlines].
  rewrite count_newlines_app, json_escape_all_no_newline. reflexivity.
Qed.

Lemma concat_no_newline sep l :
  count_newlines sep = 0%nat -> Forall (fun s => count_newlines s = 0%nat) l ->
  count_newlines (String.concat sep l) = 0%nat.
Proof.
  intros Hs. induction l as [|x l IH]; intros Hl; [done|].
  apply Forall_cons in Hl as [Hx Hl].
  destruct l as [|y l]; [exact Hx|].
  change (String.concat sep (x :: y :: l))
    with (String.append x (String.append sep (String.concat sep (y :: l)))).
  rewrite !count_newlines_app, Hx, Hs, IH by exact Hl. reflexivity.
Qed.

Lemma fragment_one_newline args : count_newlines (fragment args) = 1%nat.
Proof.
  unfold fragment, json_stringify.
  rewrite !count_newlines_app, (concat_no_newline "," (map json_string args)).
  - reflexivity.
  - reflexivity.
  - apply List.Forall_forall. intros s Hs.
    apply in_map_iff in Hs as (a & <- & _). apply json_string_no_newline.
Qed.

Lemma frag_concat_newlines l : count_newlines (frag_concat l) = length l.
Proof.
  induction l as [|a l IH]; [done|]. unfold frag_concat in *. cbn [fold_right].
  rewrite count_newlines_app, fragment_one_newline, IH. reflexivity.
Qed.

(** X8: during startup, every call of [module.err] or [module.printErr]
    adds exactly one line to [startupErrorLog], and nothing else adds one:
    the log built by the constructor has as many line feeds as error
    messages were fired on the bus, whatever the arguments contain
    ([JSON.stringify] escapes their line feeds). *)
Theorem startup_log_one_line_per_error sb :
  count_newlines (startupErrorLog (fst (construct sb)))
    = length (errors_of (trace (fst (construct sb)))).
Proof.
  destruct (construct_world sb) as [_ [_ (l & Ht & Hl)]].
  rewrite Hl, Ht. exact (frag_concat_newlines (errors_of l)).
Qed.

Lemma mod_act_log_errfn a w : err_sink w = ErrFn ->
  startupErrorLog (fst (mod_act a w)) = startupErrorLog w.
Proof.
  intros Hs. destruct a as [archive| |args|args|args|e]; simpl.
  - destruct (slot_persist w) as [h|]; [|reflexivity].
    destruct (settle_fields h (Fulfilled (VArchive archive)) (emit CbPersist w))
      as (_ & _ & _ & _ & _ & _ & L & _).
    cbn [fst]. unfold set_slot_persist; wproj. rewrite L. reflexivity.
  - destruct (slot_exit w) as [h|]; [|reflexivity].
    destruct (settle_fields h (Fulfilled VUndefined) (emit CbExit w))
      as (_ & _ & _ & _ & _ & _ & L & _).
    cbn [fst]. rewrite L. reflexivity.
  - reflexivity.
  - reflexivity.
  - unfold call_err. rewrite Hs. reflexivity.
  - reflexivity.
Qed.

Lemma run_sync_log_errfn acts : forall w, err_sink w = ErrFn ->
  startupErrorLog (fst (run_sync acts w)) = startupErrorLog w.
Proof.
  induction acts as [|a acts IH]; intros w Hs; simpl; [reflexivity|].
  pose proof (mod_act_log_errfn a w Hs) as L.
  destruct (mod_act_sync a w) as (_ & _ & _ & _ & _ & E & _).
  destruct (mod_act a w) as [w1 [e|]]; simpl in *; [exact L|].
  rewrite IH by congruence. exact L.
Qed.

Lemma persist_log_errfn mb w : err_sink w = ErrFn ->
  startupErrorLog (fst (persist mb w)) = startupErrorLog w.
Proof.
  intros Hs. rewrite persist_unfold. destruct (persistPromise w) as [h|]; [reflexivity|].
  cbn [fst]. set (w2 := emit _ _).
  destruct (settle_thrown_fields (next_id w) (snd (run_sync (on_packFsToBundle mb) w2))
              (fst (run_sync (on_packFsToBundle mb) w2))) as (_ & _ & _ & _ & _ & _ & L & _).
  unfold set_persistPromise; wproj. rewrite L, run_sync_log_errfn.
  - subst w2. reflexivity.
  - subst w2. exact Hs.
Qed.

Lemma exit_log_errfn mb w : err_sink w = ErrFn ->
  startupErrorLog (fst (exit mb w)) = startupErrorLog w.
Proof.
  intros Hs. rewrite exit_unfold. destruct (exitPromise w) as [h|]; [reflexivity|].
  cbn [fst]. set (w2 := emit _ _).
  destruct (settle_thrown_fields (next_id w) (snd (run_sync (on_requestExit mb) w2))
              (fst (run_sync (on_requestExit mb) w2))) as (_ & _ & _ & _ & _ & _ & L & _).
  unfold set_exitPromise, set_reactions, alloc; cbn [snd]; wproj.
  rewrite L, run_sync_log_errfn.
  - subst w2. reflexivity.
  - subst w2. exact Hs.
Qed.

Lemma step_log_errfn mb t w : err_sink w = ErrFn ->
  err_sink (step mb t w) = ErrFn /\ startupErrorLog (step mb t w) = startupErrorLog w.
Proof.
  intros Hs. unfold step. destruct t as [| |acts].
  - destruct (drain_fields (fst (persist mb w))) as (_ & _ & _ & _ & _ & E & L).
    destruct (persist_fields mb w) as (_ & _ & E' & _).
    rewrite E, L, E', persist_log_errfn by exact Hs. auto.
  - destruct (drain_fields (fst (exit mb w))) as (_ & _ & _ & _ & _ & E & L).
    destruct (exit_fields mb w) as (_ & E' & _).
    rewrite E, L, E', exit_log_errfn by exact Hs. auto.
  - destruct (drain_fields (fst (run_sync acts w))) as (_ & _ & _ & _ & _ & E & L).
    destruct (run_sync_sync acts w) as (_ & _ & _ & _ & _ & E' & _).
    rewrite E, L, E', run_sync_log_errfn by exact Hs. auto.
Qed.

Lemma run_log_errfn mb ts : forall w, err_sink w = ErrFn ->
  err_sink (run mb ts w) = ErrFn /\ startupErrorLog (run mb ts w) = startupErrorLog w.
Proof.
  induction ts as [|t ts IH]; intros w Hs; simpl; [auto|].
  destruct (step_log_errfn mb t w Hs) as [E L].
  destruct (IH _ E) as [E' L']. split; congruence.
Qed.

Lemma await_exit_not_ready mb h ts : forall w w', await_exit mb h ts w <> SReady w'.
Proof.
  induction ts as [|t ts IH]; intros w w'; simpl;
    destruct (store w !! h) as [[| |]|]; try discriminate; apply IH.
Qed.

(** X9: when [DosDirect] resolves with the interface, the startup log is
    empty and [module.err] has been switched to [errFn]: whatever the
    module does afterwards (error diagnostics included), the log stays
    empty. *)
Theorem ready_log_frozen sb w :
  dos_direct sb = SReady w ->
  startupErrorLog w = EmptyString /\ err_sink w = ErrFn /\
  forall ts, startupErrorLog (run (sb_module sb) ts w) = EmptyString.
Proof.
  unfold dos_direct. destruct (construct sb) as [wc [e|]]; [discriminate|].
  destruct (Nat.ltb 0 (String.length (startupErrorLog wc))) eqn:Hl.
  - intros H. exfalso. exact (await_exit_not_ready _ _ _ _ _ H).
  - intros [= <-].
    assert (L : startupErrorLog wc = EmptyString).
    { revert Hl. destruct (startupErrorLog wc); [reflexivity|]. intros H. discriminate H. }
    assert (E : err_sink (set_err_sink ErrFn wc) = ErrFn) by reflexivity.
    split; [exact L|]. split; [exact E|].
    intros ts. destruct (run_log_errfn (sb_module sb) ts _ E) as [_ ->]. exact L.
Qed.

Lemma ready_log_frozen_witness :
  let sb := mkStartupBeh [] [] [MLog ["ok"]] (mkModuleBeh [MErr ["pack"]] [MErr ["late"]; MExit]) [] in
  dos_direct sb = SReady (set_err_sink ErrFn (fst (construct sb))) /\
  startupErrorLog (run (sb_module sb) [HostPersist; HostExit] (set_err_sink ErrFn (fst (construct sb))))
    = EmptyString.
Proof.
  intros sb.
  assert (E : dos_direct sb = SReady (set_err_sink ErrFn (fst (construct sb))))
    by (vm_compute; reflexivity).
  split; [exact E|].
  exact (proj2 (proj2 (ready_log_frozen sb _ E)) [HostPersist; HostExit]).
Defined.

End StartupExtraProofs.

Module ScreenExtraProofs.
Import Screen ScreenProofs.
Local Open Scope Z_scope.

Lemma new_image_cond (v : U8View) (w h : Z) (img : ImageData) :
  new_image v w h = Some img -> 0 < w /\ 0 < h /\ byteLength v = w * h * 4.
Proof.
  unfold new_image.
  destruct (Z.ltb_spec 0 w); [|discriminate].
  destruct (Z.ltb_spec 0 h); [|discriminate].
  destruct (Z.eqb_spec (byteLength v) (w * h * 4)); [|discriminate]. auto.
Qed.

Lemma screenshot_Some_cond (m : ModuleMem) img :
  fst (screenshot m) = Some img ->
  1 <= frame_width m /\ 1 <= frame_height m /\ 0 <= frame_rgba m /\
  frame_rgba m + frame_width m * frame_height m * 4 <= Z.of_nat (length (heapu8 m)).
Proof.
  unfold screenshot.
  destruct (new_view (heapu8 m) (frame_rgba m) (frame_width m * frame_height m * 4))
    as [v|] eqn:Ev; cbn [fst]; [|discriminate].
  apply new_view_Some in Ev as (-> & Hp & HL & Hl).
  intros Ei. apply new_image_cond in Ei as (Hw & Hh & _). lia.
Qed.

Lemma alpha_at_3 (p L k : Z) :
  alpha_at (mkView p L) 3 k = (p <=? k) && (k <? p + L) && ((k - p) mod 4 =? 3).
Proof.
  unfold alpha_at. cbn [byteOffset byteLength].
  destruct (Z.leb_spec (p + 3) k); destruct (Z.leb_spec p k);
  destruct (Z.ltb_spec k (p + L));
  destruct (Z.eqb_spec ((k - p - 3) mod 4) 0); destruct (Z.eqb_spec ((k - p) mod 4) 3);
  simpl; try reflexivity; exfalso; Z.div_mod_to_equations; lia.
Qed.

(** The memory [screenshot()] leaves behind when it returns, byte by byte. *)
Lemma screenshot_heap (m : ModuleMem) (img : ImageData) (heap' : list Z) :
  screenshot m = (Some img, heap') ->
  img = mkImageData (mkView (frame_rgba m) (frame_width m * frame_height m * 4))
                    (frame_width m) (frame_height m) /\
  length heap' = length (heapu8 m) /\
  forall k : nat, heap' !! k =
    if (frame_rgba m <=? Z.of_nat k)
       && (Z.of_nat k <? frame_rgba m + frame_width m * frame_height m * 4)
       && ((Z.of_nat k - frame_rgba m) mod 4 =? 3)
    then Some 255 else heapu8 m !! k.
Proof.
  intros H. pose proof (screenshot_Some_cond m img (f_equal fst H)) as (Hw & Hh & Hp & Hl).
  rewrite (screenshot_unfold m Hw Hh Hp Hl) in H. injection H as <- <-.
  destruct (alpha_loop_spec (Z.to_nat (frame_width m * frame_height m * 4))
              (mkView (frame_rgba m) (frame_width m * frame_height m * 4)) 3 (heapu8 m))
    as [Hlen Hk]; cbn [byteOffset byteLength]; [lia|lia|lia|nia|].
  split; [reflexivity|]. split; [exact Hlen|].
  intros k. rewrite Hk, alpha_at_3. reflexivity.
Qed.

(** X10: [screenshot()] succeeds exactly when the frame is at least 1x1
    pixels and its [width * height * 4] bytes from [_getFrameRgba()] lie
    in the module's memory; otherwise it throws ([RangeError] from the
    array constructor, or the [ImageData] constructor's error). *)
Theorem screenshot_Some_iff (m : ModuleMem) :
  fst (screenshot m) <> None <->
  1 <= frame_width m /\ 1 <= frame_height m /\ 0 <= frame_rgba m /\
  frame_rgba m + frame_width m * frame_height m * 4 <= Z.of_nat (length (heapu8 m)).
Proof.
  split.
  - intros H. destruct (fst (screenshot m)) as [r|] eqn:E; [|congruence].
    exact (screenshot_Some_cond m r E).
  - intros (Hw & Hh & Hp & Hl). rewrite (screenshot_unfold m Hw Hh Hp Hl). cbn [fst].
    discriminate.
Qed.

(** X11: every call of [screenshot()], returning or throwing, changes only
    the alpha bytes of the frame (offset 3 of every 4, counted from
    [_getFrameRgba()]), which it sets to 255, and only when the
    [Uint8ClampedArray] over the frame could be built; this includes the
    calls where [new ImageData(...)] then throws. The memory keeps its
    size. *)
Theorem screenshot_writes_only_alpha (m : ModuleMem) :
  length (snd (screenshot m)) = length (heapu8 m) /\
  forall k : nat, snd (screenshot m) !! k =
    if (0 <=? frame_rgba m) && (0 <=? frame_width m * frame_height m * 4)
       && (frame_rgba m + frame_width m * frame_height m * 4 <=? Z.of_nat (length (heapu8 m)))
       && (frame_rgba m <=? Z.of_nat k)
       && (Z.of_nat k <? frame_rgba m + frame_width m * frame_height m * 4)
       && ((Z.of_nat k - frame_rgba m) mod 4 =? 3)
    then Some 255 else heapu8 m !! k.
Proof.
  unfold screenshot.
  destruct (new_view (heapu8 m) (frame_rgba m) (frame_width m * frame_height m * 4))
    as [v|] eqn:Ev; cbn [snd].
  - apply new_view_Some in Ev as (-> & Hp & HL & Hl). cbn [byteLength].
    destruct (alpha_loop_spec (Z.to_nat (frame_width m * frame_height m * 4))
                (mkView (frame_rgba m) (frame_width m * frame_height m * 4)) 3 (heapu8 m))
      as [Hlen Hk]; cbn [byteOffset byteLength]; [lia|lia|lia|lia|].
    split; [exact Hlen|]. intros k. rewrite Hk, alpha_at_3.
    rewrite (proj2 (Z.leb_le _ _) Hp), (proj2 (Z.leb_le _ _) HL), (proj2 (Z.leb_le _ _) Hl).
    reflexivity.
  - split; [reflexivity|]. intros k.
    unfold new_view in Ev. destruct (_ && _ && _) eqn:Eb; [discriminate|].
    reflexivity.
Qed.

(** [screenshot()] on a frame of -1 x -1 pixels: the array over the 4
    bytes at address 0 is built and its alpha byte set, then
    [new ImageData(...)] throws; the store stays in the memory. *)
Example screenshot_throw_keeps_store :
  screenshot (mkMem (-1) (-1) 0 [1; 2; 3; 4]) = (None, [1; 2; 3; 255]).
Proof. vm_compute. reflexivity. Qed.

(** X12: a second [screenshot()] over the same frame, with no drawing in
    between, returns the same image and leaves the memory as the first
    one left it. *)
Theorem screenshot_idempotent (m : ModuleMem) (img : ImageData) (heap' : list Z) :
  screenshot m = (Some img, heap') ->
  screenshot (mkMem (frame_width m) (frame_height m) (frame_rgba m) heap') = (Some img, heap').
Proof.
  intros H. pose proof (screenshot_Some_cond m img (f_equal fst H)) as (Hw & Hh & Hp & Hl).
  destruct (screenshot_heap m img heap' H) as (-> & Hlen & Hk).
  set (m2 := mkMem (frame_width m) (frame_height m) (frame_rgba m) heap').
  rewrite (screenshot_unfold m2); cbn [m2 frame_width frame_height frame_rgba heapu8];
    [|lia|lia|lia|lia].
  f_equal. f_equal.
  destruct (alpha_loop_spec (Z.to_nat (frame_width m * frame_height m * 4))
              (mkView (frame_rgba m) (frame_width m * frame_height m * 4)) 3 heap')
    as [_ Hk2]; cbn [byteOffset byteLength]; [lia|lia|lia|nia|].
  apply list_eq. intros k. rewrite Hk2, alpha_at_3.
  specialize (Hk k).
  destruct (_ && _ && _); [|reflexivity]. symmetry. exact Hk.
Qed.

Lemma screenshot_idempotent_witness :
  screenshot (mkMem 1 1 1 [7; 10; 20; 30; 0; 9])
    = (Some (mkImageData (mkView 1 4) 1 1), [7; 10; 20; 30; 255; 9]) /\
  screenshot (mkMem 1 1 1 [7; 10; 20; 30; 255; 9])
    = (Some (mkImageData (mkView 1 4) 1 1), [7; 10; 20; 30; 255; 9]).
Proof.
  assert (E : screenshot (mkMem 1 1 1 [7; 10; 20; 30; 0; 9])
              = (Some (mkImageData (mkView 1 4) 1 1), [7; 10; 20; 30; 255; 9]))
    by (vm_compute; reflexivity).
  split; [exact E|].
  exact (screenshot_idempotent (mkMem 1 1 1 [7; 10; 20; 30; 0; 9]) _ _ E).
Defined.

End ScreenExtraProofs.

Module CallbacksProofs.
Import Callbacks.
Local Open Scope Z_scope.

Lemma take_min_length {A} (n : nat) (l : list A) : take (Nat.min n (length l)) l = take n l.
Proof.
  destruct (Nat.le_ge_cases n (length l)).
  - by rewrite Nat.min_l.
  - rewrite Nat.min_r by done. rewrite !take_ge by lia. reflexivity.
Qed.

(** [slice(start, start + n)] with non-negative arguments: the [n]
    elements from [start], cut short at the end of the array. *)
Lemma ta_slice_window {A} (l : list A) (start n : Z) :
  0 <= start -> 0 <= n ->
  ta_slice l start (start + n) = take (Z.to_nat n) (drop (Z.to_nat start) l).
Proof.
  intros Hs Hn. unfold ta_slice, rel_index.
  destruct (Z.ltb_spec start 0); [lia|].
  destruct (Z.ltb_spec (start + n) 0); [lia|].
  assert (Ed : drop (Z.to_nat (Z.min start (Z.of_nat (length l)))) l = drop (Z.to_nat start) l).
  { destruct (Z.le_ge_cases start (Z.of_nat (length l))).
    - by rewrite Z.min_l.
    - rewrite Z.min_r by lia. rewrite !drop_ge by lia. reflexivity. }
  rewrite Ed, <- (take_min_length (Z.to_nat n)).
  rewrite <- (take_min_length (Z.to_nat (Z.max _ _))).
  f_equal. rewrite length_drop. lia.
Qed.

Lemma freq_run_callbacks cs : forall s,
  soundFrequency (run_callbacks cs s) = last_sound_init (freq s) cs.
Proof.
  induction cs as [|c cs IH]; intros s; [reflexivity|].
  destruct c; cbn [run_callbacks callback_step last_sound_init]; rewrite IH; reflexivity.
Qed.

(** X13: [module.onFrame(rgbaPtr)] fires a frame event carrying the
    [width * height * 4] bytes of [HEAPU8] from [rgbaPtr], cut short where
    the memory ends (it never throws), and changes nothing else. *)
Theorem onFrame_frame_bytes (rgbaPtr : Z) (s : CbState) :
  0 <= rgbaPtr -> 0 <= cb_width s * cb_height s ->
  onFrame rgbaPtr s =
    fire (FrameEv (take (Z.to_nat (cb_width s * cb_height s * 4))
                        (drop (Z.to_nat rgbaPtr) (cb_heapU8 s)))) s.
Proof. intros Hp Hwh. unfold onFrame. rewrite ta_slice_window by lia. reflexivity. Qed.

Lemma onFrame_frame_bytes_witness :
  (0 <= 2 /\ 0 <= cb_width (cb_init 1 1 [1; 2; 3; 4; 5] []) * cb_height (cb_init 1 1 [1; 2; 3; 4; 5] [])) /\
  onFrame 2 (cb_init 1 1 [1; 2; 3; 4; 5] []) =
    fire (FrameEv (take (Z.to_nat (1 * 1 * 4)) (drop (Z.to_nat 2) [1; 2; 3; 4; 5])))
         (cb_init 1 1 [1; 2; 3; 4; 5] []).
Proof.
  split; [vm_compute; split; discriminate|].
  apply (onFrame_frame_bytes 2 (cb_init 1 1 [1; 2; 3; 4; 5] [])); vm_compute; discriminate.
Defined.

(** X14: [module.onSoundPush(samples, numSamples)] fires a sound event
    carrying the [numSamples] elements of [HEAPF32] from index
    [samples / 4] (rounded down, for a byte address not aligned on a
    float), cut short where the memory ends, and changes nothing else. *)
Theorem onSoundPush_samples (samples numSamples : Z) (s : CbState) :
  0 <= samples -> 0 <= numSamples ->
  onSoundPush samples numSamples s =
    fire (SoundPushEv (take (Z.to_nat numSamples)
                            (drop (Z.to_nat (samples / 4)) (cb_heapF32 s)))) s.
Proof.
  intros Hs Hn. unfold onSoundPush.
  rewrite (Z.quot_div_nonneg samples 4), (Z.quot_div_nonneg (samples + 4 * numSamples) 4)
    by lia.
  replace (samples + 4 * numSamples) with (samples + numSamples * 4) by ring.
  rewrite Z.div_add by lia.
  assert (0 <= samples / 4) by (apply Z.div_pos; lia).
  rewrite ta_slice_window by lia. reflexivity.
Qed.

Lemma onSoundPush_samples_witness :
  (0 <= 5 /\ 0 <= 2) /\
  onSoundPush 5 2 (cb_init 0 0 [] [10; 11; 12; 13; 14]) =
    fire (SoundPushEv (take (Z.to_nat 2) (drop (Z.to_nat (5 / 4)) [10; 11; 12; 13; 14])))
         (cb_init 0 0 [] [10; 11; 12; 13; 14]).
Proof.
  split; [lia|].
  apply (onSoundPush_samples 5 2 (cb_init 0 0 [] [10; 11; 12; 13; 14])); lia.
Defined.

(** X15: [soundFrequency()] is 0 until the module calls [onSoundInit], and
    afterwards the frequency of its latest [onSoundInit] call; the other
    callbacks never change it. *)
Theorem soundFrequency_last_init (cs : list Callback) (width height : Z) (heapU8 heapF32 : list Z) :
  soundFrequency (run_callbacks cs (cb_init width height heapU8 heapF32)) = last_sound_init 0 cs.
Proof. exact (freq_run_callbacks cs (cb_init width height heapU8 heapF32)). Qed.

End CallbacksProofs.
